(** * Ascon-MAC core (ascon_core.c): a shallow embedding and its properties

    The C translation unit defines a 12-entry round-constant table, the
    rotation helper [ror64], the permutation [ascon_permutation], the
    big-endian helpers [load64_be] / [store64_be] and the entry point
    [ascon_mac].  Each of them is transcribed below, statement by statement.

    Conventions of the embedding:
    - a [uint64_t] is a [Z] in [0, 2^64); every C operation that can leave
      that range ([~], [<<], [*], [-], [++]) is followed by [wrap64];
    - a [uint8_t] is a [byte]; a byte buffer is a [list byte] and a pointer
      into it is the suffix of the list that starts at the pointer;
    - the array [u64 s[5]] is the record [state] read and written by index;
    - a read or write outside a buffer (undefined behaviour in C) is [None];
    - [ascon_mac] is a transformer of the [machine] that holds the three
      caller buffers, the two locals and a log of the writes to [s]. *)

From stdpp Require Import base list numbers option.
From Stdlib Require Import ZArith Lia.
From Stdlib.Strings Require Import Byte.

Open Scope Z_scope.

(** ** 64-bit words *)

Definition wrap64 (z : Z) : Z := z mod 2 ^ 64.

(** [~x] on a [u64]. *)
Definition not64 (x : Z) : Z := wrap64 (Z.lnot x).

(** [x << n] on a [u64]. *)
Definition shl64 (x n : Z) : Z := wrap64 (Z.shiftl x n).

(** [(x >> n) | (x << (64 - n))]; the C expression is defined for
    [0 < n < 64], the only amounts the permutation uses. *)
Definition ror64 (x n : Z) : Z := Z.lor (Z.shiftr x n) (shl64 x (64 - n)).

Definition is_u64 (x : Z) : Prop := 0 <= x < 2 ^ 64.

(** ** Round constants *)

Definition RC : list Z :=
  [ 0x00000000000000f0; 0x00000000000000e1; 0x00000000000000d2;
    0x00000000000000c3; 0x00000000000000b4; 0x00000000000000a5;
    0x0000000000000096; 0x0000000000000087; 0x0000000000000078;
    0x0000000000000069; 0x000000000000005a; 0x000000000000004b ].

(** [RC[i]] for an [int i]; outside [0..11] the C read is out of bounds. *)
Definition RC_at (i : Z) : option Z :=
  if (0 <=? i) && (i <? 12) then RC !! Z.to_nat i else None.

(** ** The state [u64 s[5]] *)

Record state := State { x0 : Z; x1 : Z; x2 : Z; x3 : Z; x4 : Z }.

(** [s[j]] *)
Definition sget (s : state) (j : nat) : Z :=
  match j with
  | 0%nat => x0 s | 1%nat => x1 s | 2%nat => x2 s | 3%nat => x3 s
  | 4%nat => x4 s | _ => 0
  end.

(** [s[j] = v] *)
Definition sset (s : state) (j : nat) (v : Z) : state :=
  match j with
  | 0%nat => State v (x1 s) (x2 s) (x3 s) (x4 s)
  | 1%nat => State (x0 s) v (x2 s) (x3 s) (x4 s)
  | 2%nat => State (x0 s) (x1 s) v (x3 s) (x4 s)
  | 3%nat => State (x0 s) (x1 s) (x2 s) v (x4 s)
  | 4%nat => State (x0 s) (x1 s) (x2 s) (x3 s) v
  | _ => s
  end.

(** [s[j] ^= v] *)
Definition sxor (s : state) (j : nat) (v : Z) : state :=
  sset s j (Z.lxor (sget s j) v).

Definition wf_state (s : state) : Prop :=
  is_u64 (x0 s) /\ is_u64 (x1 s) /\ is_u64 (x2 s) /\ is_u64 (x3 s) /\
  is_u64 (x4 s).

(** ** The permutation *)

(** pC: [s[2] ^= RC[i]], given the constant read from the table. *)
Definition pC (c : Z) (s : state) : state := sxor s 2 c.

(** pS: the bit-sliced S-box, lines 42-49 of the source. *)
Definition pS (s : state) : state :=
  let s := sxor s 0 (sget s 4) in
  let s := sxor s 4 (sget s 3) in
  let s := sxor s 2 (sget s 1) in
  let t0 := Z.land (not64 (sget s 0)) (sget s 1) in
  let t1 := Z.land (not64 (sget s 1)) (sget s 2) in
  let t2 := Z.land (not64 (sget s 2)) (sget s 3) in
  let t3 := Z.land (not64 (sget s 3)) (sget s 4) in
  let t4 := Z.land (not64 (sget s 4)) (sget s 0) in
  let s := sxor s 0 t1 in
  let s := sxor s 1 t2 in
  let s := sxor s 2 t3 in
  let s := sxor s 3 t4 in
  let s := sxor s 4 t0 in
  let s := sxor s 1 (sget s 0) in
  let s := sxor s 0 (sget s 4) in
  let s := sxor s 3 (sget s 2) in
  let s := sset s 2 (not64 (sget s 2)) in
  s.

(** pL: the linear diffusion layer, lines 52-56 of the source. *)
Definition pL (s : state) : state :=
  let s := sxor s 0 (Z.lxor (ror64 (sget s 0) 19) (ror64 (sget s 0) 28)) in
  let s := sxor s 1 (Z.lxor (ror64 (sget s 1) 61) (ror64 (sget s 1) 39)) in
  let s := sxor s 2 (Z.lxor (ror64 (sget s 2) 1) (ror64 (sget s 2) 6)) in
  let s := sxor s 3 (Z.lxor (ror64 (sget s 3) 10) (ror64 (sget s 3) 17)) in
  let s := sxor s 4 (Z.lxor (ror64 (sget s 4) 7) (ror64 (sget s 4) 41)) in
  s.

(** The body of the [for] loop at round index [i]. *)
Definition round (i : Z) (s : state) : option state :=
  c ← RC_at i;
  Some (pL (pS (pC c s))).

(** [for (; i < 12; i++) body]: the loop test comes first; [fuel] bounds
    the number of iterations and running out of it is [None]. *)
Fixpoint perm_loop (fuel : nat) (i : Z) (s : state) : option state :=
  match fuel with
  | O => if i <? 12 then None else Some s
  | S fuel' =>
      if i <? 12 then s' ← round i s; perm_loop fuel' (i + 1) s'
      else Some s
  end.

Definition ascon_permutation (s : state) (rounds : Z) : option state :=
  let start := 12 - rounds in
  perm_loop (Z.to_nat (12 - start)) start s.

(** ** Bytes and the big-endian helpers *)

(** [(u64)b] *)
Definition byte_val (b : byte) : Z := Z.of_N (Byte.to_N b).

(** [(uint8_t)z] *)
Definition u8 (z : Z) : byte :=
  default x00 (Byte.of_N (Z.to_N (z mod 256))).

(** [load64_be(p)]: [p] is the buffer from the pointer on; fewer than eight
    bytes there is a read out of bounds. *)
Definition load64_be (p : list byte) : option Z :=
  match p with
  | b0 :: b1 :: b2 :: b3 :: b4 :: b5 :: b6 :: b7 :: _ =>
      Some (Z.lor (Z.lor (Z.lor (Z.lor (Z.lor (Z.lor (Z.lor
              (shl64 (byte_val b0) 56) (shl64 (byte_val b1) 48))
              (shl64 (byte_val b2) 40)) (shl64 (byte_val b3) 32))
              (shl64 (byte_val b4) 24)) (shl64 (byte_val b5) 16))
              (shl64 (byte_val b6) 8)) (byte_val b7))
  | _ => None
  end.

(** [p[i] = b] with the bounds of the buffer checked. *)
Definition poke (p : list byte) (i : nat) (b : byte) : option (list byte) :=
  if decide (i < length p)%nat then Some (<[i := b]> p) else None.

(** [store64_be(p + off, x)] on the buffer [p]. *)
Definition store64_be (p : list byte) (off : nat) (x : Z)
  : option (list byte) :=
  p ← poke p off (u8 (Z.shiftr x 56));
  p ← poke p (off + 1) (u8 (Z.shiftr x 48));
  p ← poke p (off + 2) (u8 (Z.shiftr x 40));
  p ← poke p (off + 3) (u8 (Z.shiftr x 32));
  p ← poke p (off + 4) (u8 (Z.shiftr x 24));
  p ← poke p (off + 5) (u8 (Z.shiftr x 16));
  p ← poke p (off + 6) (u8 (Z.shiftr x 8));
  poke p (off + 7) (u8 x).

(** [memcpy(dst, src, n)], [src] being the source buffer from the pointer
    on. *)
Definition memcpy (dst src : list byte) (n : nat) : option (list byte) :=
  if decide (n ≤ length src ∧ n ≤ length dst)%nat
  then Some (take n src ++ drop n dst) else None.

(** ** The machine [ascon_mac] runs on *)

(** Where the right-hand side of a write to [s] comes from. *)
Inductive region := KeyMem | MsgMem | BufMem.

Inductive operand :=
| Lit (c : Z)                      (* a literal of the source *)
| Load64 (r : region) (off : Z).   (* load64_be(r + off) *)

(** What [ascon_mac] itself does to [s]; the last field of a write is the
    value of its operand. *)
Inductive event :=
| Assign (j : nat) (o : operand) (v : Z)       (* s[j] = o *)
| XorAssign (j : nat) (o : operand) (v : Z)    (* s[j] ^= o *)
| Permute (rounds : Z).                        (* ascon_permutation(s, rounds) *)

(** [m_key], [m_msg] and [m_tag] are the caller's buffers, taken to be
    pairwise disjoint; [m_s] and [m_buf] are the locals [s] and [buf], whose
    contents on entry are indeterminate; [m_log] is the instrumentation. *)
Record machine := Machine {
  m_key : list byte;
  m_msg : list byte;
  m_tag : list byte;
  m_s : state;
  m_buf : list byte;
  m_log : list event
}.

Definition with_s (m : machine) (s : state) (e : event) : machine :=
  Machine (m_key m) (m_msg m) (m_tag m) s (m_buf m) (m_log m ++ [e]).

Definition with_buf (m : machine) (b : list byte) : machine :=
  Machine (m_key m) (m_msg m) (m_tag m) (m_s m) b (m_log m).

Definition with_tag (m : machine) (t : list byte) : machine :=
  Machine (m_key m) (m_msg m) t (m_s m) (m_buf m) (m_log m).

Definition region_bytes (m : machine) (r : region) : list byte :=
  match r with
  | KeyMem => m_key m
  | MsgMem => m_msg m
  | BufMem => m_buf m
  end.

Definition eval_operand (m : machine) (o : operand) : option Z :=
  match o with
  | Lit c => Some c
  | Load64 r off =>
      if 0 <=? off then load64_be (drop (Z.to_nat off) (region_bytes m r))
      else None
  end.

(** [s[j] = o;] *)
Definition assign (j : nat) (o : operand) (m : machine) : option machine :=
  if decide (j < 5)%nat then
    v ← eval_operand m o;
    Some (with_s m (sset (m_s m) j v) (Assign j o v))
  else None.

(** [s[j] ^= o;] *)
Definition xor_assign (j : nat) (o : operand) (m : machine)
  : option machine :=
  if decide (j < 5)%nat then
    v ← eval_operand m o;
    Some (with_s m (sxor (m_s m) j v) (XorAssign j o v))
  else None.

(** [ascon_permutation(s, rounds);] *)
Definition permute (rounds : Z) (m : machine) : option machine :=
  s' ← ascon_permutation (m_s m) rounds;
  Some (with_s m s' (Permute rounds)).

(** ** ascon_mac *)

Definition IV : Z := 0x80808C0000000080.

(** The body of the loop over the complete blocks, at index [i]. *)
Definition absorb_block (i : Z) (m : machine) : option machine :=
  let blk := wrap64 (i * 32) in
  m ← xor_assign 0 (Load64 MsgMem blk) m;
  m ← xor_assign 1 (Load64 MsgMem (blk + 8)) m;
  m ← xor_assign 2 (Load64 MsgMem (blk + 16)) m;
  m ← xor_assign 3 (Load64 MsgMem (blk + 24)) m;
  permute 12 m.

(** [for (; i < full_blocks; i++) body], as [perm_loop]. *)
Fixpoint absorb_loop (fuel : nat) (i full_blocks : Z) (m : machine)
  : option machine :=
  match fuel with
  | O => if i <? full_blocks then None else Some m
  | S fuel' =>
      if i <? full_blocks then
        m' ← absorb_block i m;
        absorb_loop fuel' (wrap64 (i + 1)) full_blocks m'
      else Some m
  end.

(** [ascon_mac(key, msg, len, tag)] on the machine holding [key], [msg] and
    [tag]. *)
Definition ascon_mac (len : Z) (m : machine) : option machine :=
  (* initialization *)
  m ← assign 0 (Lit IV) m;
  m ← assign 1 (Load64 KeyMem 0) m;
  m ← assign 2 (Load64 KeyMem 8) m;
  m ← assign 3 (Lit 0) m;
  m ← assign 4 (Lit 0) m;
  m ← permute 12 m;
  (* absorb: the complete blocks *)
  let full_blocks := len / 32 in
  m ← absorb_loop (Z.to_nat full_blocks) 0 full_blocks m;
  (* absorb: the final padded block *)
  let m := with_buf m (replicate 32 x00) in
  let remaining := wrap64 (len - wrap64 (full_blocks * 32)) in
  m ← (if 0 <? remaining then
         b ← memcpy (m_buf m)
               (drop (Z.to_nat (wrap64 (full_blocks * 32))) (m_msg m))
               (Z.to_nat remaining);
         Some (with_buf m b)
       else Some m);
  b ← poke (m_buf m) (Z.to_nat remaining) x80;
  let m := with_buf m b in
  m ← xor_assign 0 (Load64 BufMem 0) m;
  m ← xor_assign 1 (Load64 BufMem 8) m;
  m ← xor_assign 2 (Load64 BufMem 16) m;
  m ← xor_assign 3 (Load64 BufMem 24) m;
  m ← xor_assign 4 (Lit 1) m;
  m ← permute 12 m;
  (* squeeze *)
  t ← store64_be (m_tag m) 0 (sget (m_s m) 0);
  t ← store64_be t 8 (sget (m_s m) 1);
  Some (with_tag m t).

(** ** Specification-side definitions

    The definitions below follow the words of the specification; the
    theorems compare the code above with them. *)

(** Exact circular right rotation over 64 bits: the low [n] bits move to
    the top, the rest moves down by [n]. *)
Definition rotate_right (x n : Z) : Z :=
  x / 2 ^ n + (x mod 2 ^ n) * 2 ^ (64 - n).


(** The substitution layer in three stages: the three leading XORs, the
    five temporaries of the state they produce, the five XORs with the
    temporaries followed by the four closing updates. *)
Definition sbox_pre (s : state) : state :=
  State (Z.lxor (sget s 0) (sget s 4)) (sget s 1)
        (Z.lxor (sget s 2) (sget s 1)) (sget s 3)
        (Z.lxor (sget s 4) (sget s 3)).

Definition sbox_t (a : state) (j : nat) : Z :=
  Z.land (not64 (sget a j)) (sget a ((j + 1) mod 5)).

Definition sbox_mid (a : state) : state :=
  State (Z.lxor (sget a 0) (sbox_t a 1)) (Z.lxor (sget a 1) (sbox_t a 2))
        (Z.lxor (sget a 2) (sbox_t a 3)) (Z.lxor (sget a 3) (sbox_t a 4))
        (Z.lxor (sget a 4) (sbox_t a 0)).

Definition sbox_post (b : state) : state :=
  State (Z.lxor (sget b 0) (sget b 4)) (Z.lxor (sget b 1) (sget b 0))
        (not64 (sget b 2)) (Z.lxor (sget b 3) (sget b 2)) (sget b 4).

Definition substitution_spec (s : state) : state :=
  sbox_post (sbox_mid (sbox_pre s)).

(** A substitution layer that reads each temporary only when it is used,
    that is after earlier words were reassigned; used to show that the
    order of the source matters. *)
Definition substitution_late (s : state) : state :=
  let a := sbox_pre s in
  let a := sxor a 0 (sbox_t a 1) in
  let a := sxor a 1 (sbox_t a 2) in
  let a := sxor a 2 (sbox_t a 3) in
  let a := sxor a 3 (sbox_t a 4) in
  let a := sxor a 4 (sbox_t a 0) in
  sbox_post a.

(** One round, given its constant. *)
Definition round_with (s : state) (c : Z) : state := pL (pS (pC c s)).

(** The last [rounds] entries of the table. *)
Definition last_constants (rounds : Z) : list Z :=
  drop (Z.to_nat (12 - rounds)) RC.

(** The twelve-round permutation as a function. *)
Definition P12 (s : state) : state := fold_left round_with RC s.

(** The value of a byte string read as a big-endian number. *)
Definition be64 (bs : list byte) : Z :=
  fold_left (fun acc b => acc * 256 + byte_val b) bs 0.

(** The eight bytes of a word, most significant first. *)
Definition be_bytes (x : Z) : list byte :=
  map (fun k : nat => u8 (x / 256 ^ Z.of_nat (7 - k))) (seq 0 8).

(** The big-endian word at offset [off] of a buffer. *)
Definition word_at (p : list byte) (off : nat) : Z :=
  be64 (take 8 (drop off p)).

(** The final block: the [len mod 32] trailing bytes, one 0x80, zeros. *)
Definition pad_block (msg : list byte) (len : Z) : list byte :=
  let r := Z.to_nat (len mod 32) in
  take r (drop (Z.to_nat (32 * (len / 32))) msg)
    ++ x80 :: replicate (31 - r) x00.

(** The effect of one logged step on the state. *)
Definition apply_event (e : event) (s : state) : option state :=
  match e with
  | Assign j _ v => Some (sset s j v)
  | XorAssign j _ v => Some (sxor s j v)
  | Permute r => ascon_permutation s r
  end.

Fixpoint replay (evs : list event) (s : state) : option state :=
  match evs with
  | [] => Some s
  | e :: evs' => s' ← apply_event e s; replay evs' s'
  end.

(** The XORs of the four words of a 32-byte block at [off] of region [r],
    whose contents are [p], into the rate words. *)
Definition block_events (r : region) (p : list byte) (off : nat)
  : list event :=
  [ XorAssign 0 (Load64 r (Z.of_nat off)) (word_at p off);
    XorAssign 1 (Load64 r (Z.of_nat off + 8)) (word_at p (off + 8));
    XorAssign 2 (Load64 r (Z.of_nat off + 16)) (word_at p (off + 16));
    XorAssign 3 (Load64 r (Z.of_nat off + 24)) (word_at p (off + 24)) ].

Definition init_events (key : list byte) : list event :=
  [ Assign 0 (Lit IV) IV;
    Assign 1 (Load64 KeyMem 0) (word_at key 0);
    Assign 2 (Load64 KeyMem 8) (word_at key 8);
    Assign 3 (Lit 0) 0;
    Assign 4 (Lit 0) 0;
    Permute 12 ].

Definition full_block_events (msg : list byte) (i : nat) : list event :=
  block_events MsgMem msg (32 * i) ++ [Permute 12].

Definition final_events (buf : list byte) : list event :=
  block_events BufMem buf 0 ++ [XorAssign 4 (Lit 1) 1; Permute 12].

(** Everything after the initialization. *)
Definition absorb_events (msg : list byte) (len : Z) : list event :=
  flat_map (full_block_events msg) (seq 0 (Z.to_nat (len / 32)))
    ++ final_events (pad_block msg len).

Definition mac_events (key msg : list byte) (len : Z) : list event :=
  init_events key ++ absorb_events msg len.

(** Classification of the logged steps. *)
Definition message_derived (o : operand) : bool :=
  match o with
  | Load64 MsgMem _ | Load64 BufMem _ => true
  | _ => false
  end.

Definition is_permute (e : event) : bool :=
  match e with Permute _ => true | _ => false end.

Definition is_absorb_xor (e : event) : bool :=
  match e with XorAssign _ o _ => message_derived o | _ => false end.

Definition writes_word (j : nat) (e : event) : bool :=
  match e with
  | Assign k _ _ | XorAssign k _ _ => Nat.eqb k j
  | Permute _ => false
  end.

(** The machine after the logged steps [evs]. *)
Definition exec_events (evs : list event) (m : machine) : option machine :=
  s' ← replay evs (m_s m);
  Some (Machine (m_key m) (m_msg m) (m_tag m) s' (m_buf m) (m_log m ++ evs)).

(** The preconditions of the C contract: a 16-byte key, [len] message
    bytes present, a tag buffer of at least 16 bytes. *)
Definition mac_pre (len : Z) (m : machine) : Prop :=
  (length (m_key m) = 16)%nat ∧
  (0 <= len ∧ len <= Z.of_nat (length (m_msg m))) ∧
  len < 2 ^ 64 ∧
  (16 <= length (m_tag m))%nat.

(** A step the permutation is defined for, with a word as operand. *)
Definition event_ok (e : event) : Prop :=
  match e with
  | Assign _ _ v | XorAssign _ _ v => is_u64 v
  | Permute r => 0 <= r <= 12
  end.

(** The machine [ascon_mac] stops in, given the final state [sF]. *)
Definition final_machine (len : Z) (m : machine) (sF : state) : machine :=
  Machine (m_key m) (m_msg m)
    (be_bytes (sget sF 0) ++ be_bytes (sget sF 1) ++ drop 16 (m_tag m))
    sF (pad_block (m_msg m) len)
    (m_log m ++ mac_events (m_key m) (m_msg m) len).

(** The rounds at the indices [idx], in order. *)
Fixpoint rounds_over (idx : list Z) (s : state) : option state :=
  match idx with
  | [] => Some s
  | i :: idx' => s' ← round i s; rounds_over idx' s'
  end.

(** The log a call adds to the one it found. *)
Definition new_events (m m' : machine) : list event :=
  drop (length (m_log m)) (m_log m').

(** Sample inputs: the key 00 01 .. 0f, a 33-byte message, a tag buffer
    of sixteen ff bytes, and arbitrary contents of the locals. *)
Definition sample_key : list byte := map (fun k => u8 (Z.of_nat k)) (seq 0 16).

Definition sample_msg : list byte :=
  map (fun k => u8 (7 * Z.of_nat k + 1)) (seq 0 33).

Definition sample_machine : machine :=
  Machine sample_key sample_msg (replicate 16 xff)
    (State 11 22 33 44 55) (replicate 5 x2a) [].

(** The same inputs with other contents of the locals and of the tag
    buffer. *)
Definition sample_machine' : machine :=
  Machine sample_key sample_msg (replicate 20 x00)
    (State 0 0 0 0 0) [] [Permute 3].

(** The region an operand is loaded from, if any. *)
Definition reads_region (r : region) (e : event) : bool :=
  match e with
  | Assign _ (Load64 r' _) _ | XorAssign _ (Load64 r' _) _ =>
      match r, r' with
      | KeyMem, KeyMem | MsgMem, MsgMem | BufMem, BufMem => true
      | _, _ => false
      end
  | _ => false
  end.

(** For a logged write: only rate words take message-derived operands,
    and plain assignments take none. *)
Definition rate_only (e : event) : Prop :=
  match e with
  | XorAssign j o _ => message_derived o = true → (j < 4)%nat
  | Assign _ o _ => message_derived o = false
  | Permute _ => True
  end.

(** The state after [s[0..3] ^= ] the four big-endian words of the block
    at [off] of [p]; the capacity word is kept. *)
Definition absorb_words (s : state) (p : list byte) (off : nat) : state :=
  State (Z.lxor (x0 s) (word_at p off))
        (Z.lxor (x1 s) (word_at p (off + 8)))
        (Z.lxor (x2 s) (word_at p (off + 16)))
        (Z.lxor (x3 s) (word_at p (off + 24)))
        (x4 s).

(** The state after the initialization and the first [k] complete blocks
    of the message: each block is XORed into the rate words and the
    12-round permutation applied. *)
Definition blocks_state (key msg : list byte) (k : nat) : state :=
  fold_left (fun st i => P12 (absorb_words st msg (32 * i))) (seq 0 k)
    (P12 (State IV (word_at key 0) (word_at key 8) 0 0)).

(** The state the last permutation is applied to: the final block XORed
    into the rate words and the lowest bit of the capacity word flipped. *)
Definition absorb_final (s : state) (buf : list byte) : state :=
  State (Z.lxor (x0 s) (word_at buf 0)) (Z.lxor (x1 s) (word_at buf 8))
        (Z.lxor (x2 s) (word_at buf 16)) (Z.lxor (x3 s) (word_at buf 24))
        (Z.lxor (x4 s) 1).

(** Word-wise XOR of two states. *)
Definition state_xor (s t : state) : state :=
  State (Z.lxor (x0 s) (x0 t)) (Z.lxor (x1 s) (x1 t))
        (Z.lxor (x2 s) (x2 t)) (Z.lxor (x3 s) (x3 t))
        (Z.lxor (x4 s) (x4 t)).

(** The statements of the substitution layer on one bit of each word. *)
Definition sbox_lane (b0 b1 b2 b3 b4 : bool)
  : bool * bool * bool * bool * bool :=
  let b0 := xorb b0 b4 in
  let b4 := xorb b4 b3 in
  let b2 := xorb b2 b1 in
  let t0 := negb b0 && b1 in
  let t1 := negb b1 && b2 in
  let t2 := negb b2 && b3 in
  let t3 := negb b3 && b4 in
  let t4 := negb b4 && b0 in
  let b0 := xorb b0 t1 in
  let b1 := xorb b1 t2 in
  let b2 := xorb b2 t3 in
  let b3 := xorb b3 t4 in
  let b4 := xorb b4 t0 in
  let b1 := xorb b1 b0 in
  let b0 := xorb b0 b4 in
  let b3 := xorb b3 b2 in
  let b2 := negb b2 in
  (b0, b1, b2, b3, b4).

(** Bit [i] of each of the five words. *)
Definition lane (s : state) (i : Z) : bool * bool * bool * bool * bool :=
  (Z.testbit (x0 s) i, Z.testbit (x1 s) i, Z.testbit (x2 s) i,
   Z.testbit (x3 s) i, Z.testbit (x4 s) i).

(** A lane as a number below 32, the bit of [s[0]] the most significant. *)
Definition lane_value (l : bool * bool * bool * bool * bool) : nat :=
  let '(b0, b1, b2, b3, b4) := l in
  (16 * Nat.b2n b0 + 8 * Nat.b2n b1 + 4 * Nat.b2n b2 + 2 * Nat.b2n b3
   + Nat.b2n b4)%nat.

(** The 5-bit S-box the substitution layer computes on every lane. *)
Definition sbox_table : list nat :=
  [ 4; 11; 31; 20; 26; 21; 9; 2; 27; 5; 8; 18; 29; 3; 6; 28;
    30; 19; 7; 14; 0; 13; 17; 24; 16; 12; 1; 25; 22; 10; 15; 23 ]%nat.

(** Right rotation by any amount, taken modulo 64. *)
Definition rot (n x : Z) : Z := rotate_right x (n mod 64).

(** A word XORed with two of its rotations: the shape of each line of the
    diffusion layer, for any two amounts. *)
Definition lin (a b x : Z) : Z := Z.lxor x (Z.lxor (rot a x) (rot b x)).

(** What the code needs of its arguments to stay inside the buffers:
    sixteen key bytes, [len] message bytes, sixteen tag bytes. *)
Definition mac_safe (len : Z) (m : machine) : Prop :=
  (16 <= length (m_key m))%nat ∧
  (0 <= len ∧ len <= Z.of_nat (length (m_msg m))) ∧
  len < 2 ^ 64 ∧
  (16 <= length (m_tag m))%nat.

(** The operand value of a logged write. *)
Definition event_value (e : event) : Z :=
  match e with
  | Assign _ _ v | XorAssign _ _ v => v
  | Permute _ => 0
  end.

(** The message as it is absorbed: its first [len] bytes, one byte 0x80,
    zeros up to the next multiple of 32. *)
Definition padded (msg : list byte) (len : Z) : list byte :=
  take (Z.to_nat len) msg
    ++ x80 :: replicate (31 - Z.to_nat (len mod 32)) x00.

(** The caller's three buffers are the same in both machines. *)
Definition same_args (m m' : machine) : Prop :=
  m_key m' = m_key m ∧ m_msg m' = m_msg m ∧ m_tag m' = m_tag m.

(** * Properties *)

(** ** The embedding on concrete inputs *)

Example ror64_one : ror64 1 1 = 0x8000000000000000.
Proof. reflexivity. Qed.

Example ror64_high_byte : ror64 0x0123456789abcdef 8 = 0xef0123456789abcd.
Proof. reflexivity. Qed.

Example load64_be_bytes :
  load64_be [x01; x02; x03; x04; x05; x06; x07; x08; xff]
  = Some 0x0102030405060708.
Proof. reflexivity. Qed.

Example store64_be_bytes :
  store64_be (replicate 9 xff) 1 0x0102030405060708
  = Some [xff; x01; x02; x03; x04; x05; x06; x07; x08].
Proof. reflexivity. Qed.

(** Storing past the end of the buffer is a write out of bounds. *)
Example store64_be_out_of_bounds :
  store64_be (replicate 9 xff) 2 0x0102030405060708 = None.
Proof. reflexivity. Qed.

Example ascon_permutation_out_of_table :
  ascon_permutation (State 0 0 0 0 0) 13 = None.
Proof. reflexivity. Qed.

(** The empty message: the six steps of the initialization and one
    final block made of the padding byte alone. *)
Example empty_message_log :
  (m ← ascon_mac 0 sample_machine; Some (m_buf m, skipn 5 (m_log m)))
  = Some (x80 :: replicate 31 x00,
          [ Permute 12;
            XorAssign 0 (Load64 BufMem 0) 0x8000000000000000;
            XorAssign 1 (Load64 BufMem 8) 0;
            XorAssign 2 (Load64 BufMem 16) 0;
            XorAssign 3 (Load64 BufMem 24) 0;
            XorAssign 4 (Lit 1) 1;
            Permute 12 ]).
Proof. by vm_compute. Qed.

(** A length beyond the message buffer is a read out of bounds. *)
Example length_beyond_message : ascon_mac 34 sample_machine = None.
Proof. by vm_compute. Qed.

(** A tag buffer of fewer than sixteen bytes is a write out of bounds. *)
Example short_tag_buffer :
  ascon_mac 33 (with_tag sample_machine (replicate 15 x00)) = None.
Proof. by vm_compute. Qed.

(** ** 64-bit words *)

Section Words.

Implicit Types x y z n i : Z.

Lemma pow64_pos : 0 < 2 ^ 64.
Proof. reflexivity. Qed.

Lemma is_u64_wrap z : is_u64 (wrap64 z).
Proof. unfold is_u64, wrap64. apply Z.mod_pos_bound, pow64_pos. Qed.

Lemma wrap64_small x : is_u64 x → wrap64 x = x.
Proof. unfold is_u64, wrap64. intros H. by apply Z.mod_small. Qed.

Lemma wrap64_testbit z i :
  Z.testbit (wrap64 z) i = (i <? 64) && Z.testbit z i.
Proof. unfold wrap64. by apply Z.testbit_mod_pow2. Qed.

(** A word is in range exactly when it is non-negative and has no bit at
    position 64 or above. *)
Lemma is_u64_high_bits x :
  is_u64 x → ∀ i, 64 <= i → Z.testbit x i = false.
Proof.
  intros H i Hi. rewrite <- (wrap64_small x H), wrap64_testbit.
  destruct (Z.ltb_spec i 64); [lia | done].
Qed.

Lemma is_u64_of_bits x :
  0 <= x → (∀ i, 64 <= i → Z.testbit x i = false) → is_u64 x.
Proof.
  intros H0 Hb.
  assert (wrap64 x = x) as <-; [| apply is_u64_wrap].
  apply Z.bits_inj'. intros i Hi. rewrite wrap64_testbit.
  destruct (Z.ltb_spec i 64); [done |]. by rewrite Hb.
Qed.

Lemma is_u64_lxor x y : is_u64 x → is_u64 y → is_u64 (Z.lxor x y).
Proof.
  intros Hx Hy. apply is_u64_of_bits.
  - apply Z.lxor_nonneg. unfold is_u64 in *. lia.
  - intros i Hi. rewrite Z.lxor_spec.
    by rewrite (is_u64_high_bits x), (is_u64_high_bits y).
Qed.

Lemma is_u64_lor x y : is_u64 x → is_u64 y → is_u64 (Z.lor x y).
Proof.
  intros Hx Hy. apply is_u64_of_bits.
  - apply Z.lor_nonneg. unfold is_u64 in *. lia.
  - intros i Hi. rewrite Z.lor_spec.
    by rewrite (is_u64_high_bits x), (is_u64_high_bits y).
Qed.

Lemma is_u64_land x y : is_u64 y → is_u64 (Z.land x y).
Proof.
  intros Hy. apply is_u64_of_bits.
  - apply Z.land_nonneg. unfold is_u64 in *. lia.
  - intros i Hi. rewrite Z.land_spec, (is_u64_high_bits y) by done.
    apply andb_false_r.
Qed.

Lemma is_u64_shiftr x n : is_u64 x → 0 <= n → is_u64 (Z.shiftr x n).
Proof.
  intros Hx Hn. apply is_u64_of_bits.
  - apply Z.shiftr_nonneg. unfold is_u64 in *. lia.
  - intros i Hi. rewrite Z.shiftr_spec by lia.
    apply is_u64_high_bits; [done | lia].
Qed.

Lemma is_u64_not64 x : is_u64 (not64 x).
Proof. apply is_u64_wrap. Qed.

Lemma is_u64_shl64 x n : is_u64 (shl64 x n).
Proof. apply is_u64_wrap. Qed.

Lemma is_u64_ror64 x n : is_u64 x → 0 <= n → is_u64 (ror64 x n).
Proof.
  intros. apply is_u64_lor; [by apply is_u64_shiftr | apply is_u64_shl64].
Qed.

(** Bit [i] of the rotated word is bit [(i + n) mod 64] of the word. *)
Lemma ror64_testbit x n i :
  is_u64 x → 0 < n < 64 → 0 <= i < 64 →
  Z.testbit (ror64 x n) i = Z.testbit x ((i + n) mod 64).
Proof.
  intros Hx Hn Hi. unfold ror64, shl64.
  rewrite Z.lor_spec, Z.shiftr_spec, wrap64_testbit, Z.shiftl_spec by lia.
  destruct (Z.ltb_spec i 64) as [_|]; [| lia]. cbn [andb].
  destruct (Z.lt_ge_cases (i + n) 64) as [Hlt | Hge].
  - rewrite (Z.mod_small (i + n) 64) by lia.
    rewrite (Z.testbit_neg_r x (i - (64 - n))) by lia.
    apply orb_false_r.
  - replace ((i + n) mod 64) with (i - (64 - n)).
    + rewrite (is_u64_high_bits x Hx (i + n)) by lia. done.
    + apply Z.mod_unique with 1; lia.
Qed.

(** The arithmetic reading of the rotation has the same bits. *)
Lemma rotate_right_testbit x n i :
  is_u64 x → 0 < n < 64 → 0 <= i →
  Z.testbit (rotate_right x n) i
  = (i <? 64) && Z.testbit x ((i + n) mod 64).
Proof.
  intros Hx Hn Hi. unfold rotate_right.
  assert (0 < 2 ^ n) by (apply Z.pow_pos_nonneg; lia).
  rewrite (Z.add_comm (x / 2 ^ n)).
  assert (Hlow : 0 <= x / 2 ^ n < 2 ^ (64 - n)).
  { split; [apply Z.div_pos; unfold is_u64 in Hx; lia |].
    apply Z.div_lt_upper_bound; [lia |].
    rewrite <- Z.pow_add_r by lia. replace (n + (64 - n)) with 64 by lia.
    apply Hx. }
  rewrite <- Z.shiftl_mul_pow2 by lia.
  rewrite Z.add_nocarry_lxor.
  2:{ apply Z.bits_inj'. intros k Hk. rewrite Z.land_spec, Z.bits_0.
      destruct (Z.lt_ge_cases k (64 - n)).
      - rewrite Z.shiftl_spec_low by lia. done.
      - rewrite <- (Z.mod_small _ _ Hlow), Z.mod_pow2_bits_high by lia.
        apply andb_false_r. }
  rewrite Z.lxor_spec, Z.shiftl_spec by lia.
  rewrite <- Z.shiftr_div_pow2, Z.shiftr_spec by lia.
  destruct (Z.ltb_spec i 64) as [Hi64 | Hi64]; cbn [andb].
  - destruct (Z.lt_ge_cases (i + n) 64) as [Hlt | Hge].
    + rewrite (Z.mod_small (i + n) 64) by lia.
      rewrite (Z.testbit_neg_r _ (i - (64 - n))) by lia. done.
    + replace ((i + n) mod 64) with (i - (64 - n))
        by (apply Z.mod_unique with 1; lia).
      rewrite (is_u64_high_bits x Hx (i + n)) by lia.
      rewrite Z.mod_pow2_bits_low by lia. apply xorb_false_r.
  - rewrite (is_u64_high_bits x Hx (i + n)) by lia.
    rewrite Z.mod_pow2_bits_high by lia. done.
Qed.

(** On words, and for the amounts the C expression is defined for,
    [ror64] is the exact rotation. *)
Lemma ror64_rotate_right x n :
  is_u64 x → 0 < n < 64 → ror64 x n = rotate_right x n.
Proof.
  intros Hx Hn. apply Z.bits_inj'. intros i Hi.
  rewrite rotate_right_testbit by done.
  destruct (Z.ltb_spec i 64); cbn [andb].
  - by apply ror64_testbit.
  - apply is_u64_high_bits; [apply is_u64_ror64; [done | lia] | done].
Qed.

End Words.

(** ** The state and the layers of a round *)

Lemma sget_sset s j k v :
  (j < 5)%nat → sget (sset s j v) k = if decide (k = j) then v else sget s k.
Proof.
  intros Hj. destruct s.
  do 5 (destruct j as [| j]; [by do 5 (destruct k as [| k]; [done |]) |]).
  lia.
Qed.

Lemma is_u64_sget s j : wf_state s → is_u64 (sget s j).
Proof.
  intros (H0 & H1 & H2 & H3 & H4).
  do 5 (destruct j as [| j]; [done |]). by cbv.
Qed.

Lemma wf_state_sset s j v : wf_state s → is_u64 v → wf_state (sset s j v).
Proof.
  intros (H0 & H1 & H2 & H3 & H4) Hv.
  unfold wf_state.
  do 5 (destruct j as [| j]; [cbn; tauto |]). cbn. tauto.
Qed.

Lemma wf_state_sxor s j v : wf_state s → is_u64 v → wf_state (sxor s j v).
Proof.
  intros Hs Hv. apply wf_state_sset; [done |].
  apply is_u64_lxor; [by apply is_u64_sget | done].
Qed.

Create HintDb u64.

#[local] Hint Resolve wf_state_sxor wf_state_sset is_u64_sget is_u64_lxor
  is_u64_land is_u64_not64 is_u64_ror64 : u64.

Lemma wf_state_pC c s : is_u64 c → wf_state s → wf_state (pC c s).
Proof. unfold pC. auto with u64. Qed.

Lemma wf_state_pS s : wf_state s → wf_state (pS s).
Proof. intros Hs. unfold pS. cbv zeta. auto 30 with u64. Qed.

Lemma wf_state_sigma s j a b :
  wf_state s → 0 <= a → 0 <= b →
  wf_state (sxor s j (Z.lxor (ror64 (sget s j) a) (ror64 (sget s j) b))).
Proof. intros. auto with u64. Qed.

Lemma wf_state_pL s : wf_state s → wf_state (pL s).
Proof.
  intros Hs. unfold pL. cbv zeta.
  repeat (apply wf_state_sigma; [| lia | lia]). done.
Qed.

Lemma Forall_is_u64_RC : Forall is_u64 RC.
Proof. repeat constructor; done. Qed.

Lemma wf_state_round_with s c :
  is_u64 c → wf_state s → wf_state (round_with s c).
Proof.
  intros. by apply wf_state_pL, wf_state_pS, wf_state_pC.
Qed.

Lemma wf_state_fold_rounds cs s :
  Forall is_u64 cs → wf_state s → wf_state (fold_left round_with cs s).
Proof.
  intros Hcs. revert s.
  induction Hcs as [| c cs Hc _ IH]; intros s Hs; [done |].
  cbn [fold_left]. by apply IH, wf_state_round_with.
Qed.

Lemma wf_state_P12 s : wf_state s → wf_state (P12 s).
Proof. apply wf_state_fold_rounds, Forall_is_u64_RC. Qed.

(** ** The round loop *)

Lemma RC_at_lookup (k : nat) :
  (k < 12)%nat → RC_at (Z.of_nat k) = RC !! k.
Proof.
  intros Hk. unfold RC_at. rewrite Nat2Z.id.
  destruct (Z.leb_spec 0 (Z.of_nat k)); [| lia].
  destruct (Z.ltb_spec (Z.of_nat k) 12); [done | lia].
Qed.

(** From index [k <= 12] the loop folds the rounds over the constants
    from [k] on, and [12 - k] units of fuel are enough. *)
Lemma perm_loop_drop (fuel k : nat) s :
  (k + fuel = 12)%nat →
  perm_loop fuel (Z.of_nat k) s = Some (fold_left round_with (drop k RC) s).
Proof.
  revert k s. induction fuel as [| fuel IH]; intros k s Hk.
  - cbn [perm_loop]. destruct (Z.ltb_spec (Z.of_nat k) 12); [lia |].
    by rewrite drop_ge by (cbn; lia).
  - cbn [perm_loop]. destruct (Z.ltb_spec (Z.of_nat k) 12); [| lia].
    unfold round. rewrite RC_at_lookup by lia.
    destruct (lookup_lt_is_Some_2 RC k) as [c Hc]; [cbn; lia |].
    rewrite Hc. cbn [mbind option_bind].
    replace (Z.of_nat k + 1) with (Z.of_nat (S k)) by lia.
    rewrite IH by lia.
    by rewrite (drop_S RC c k Hc).
Qed.

Lemma ascon_permutation_last_constants s rounds :
  0 <= rounds <= 12 →
  ascon_permutation s rounds
  = Some (fold_left round_with (last_constants rounds) s).
Proof.
  intros Hr. unfold ascon_permutation, last_constants. cbv zeta.
  replace (12 - rounds) with (Z.of_nat (Z.to_nat (12 - rounds))) at 2 by lia.
  apply perm_loop_drop. lia.
Qed.

Lemma ascon_permutation_12 s : ascon_permutation s 12 = Some (P12 s).
Proof. by rewrite ascon_permutation_last_constants by lia. Qed.

(** With no round to run the loop body is never entered. *)
Lemma ascon_permutation_nonpos s rounds :
  rounds <= 0 → ascon_permutation s rounds = Some s.
Proof.
  intros Hr. unfold ascon_permutation. cbv zeta.
  replace (Z.to_nat (12 - (12 - rounds))) with 0%nat by lia.
  cbn [perm_loop]. destruct (Z.ltb_spec (12 - rounds) 12); [lia | done].
Qed.

(** ** Bytes and big-endian words *)

Lemma byte_val_range b : 0 <= byte_val b < 256.
Proof. unfold byte_val. pose proof (Byte.to_N_bounded b). lia. Qed.

Lemma byte_val_u8 z : byte_val (u8 z) = z mod 256.
Proof.
  unfold u8, byte_val.
  assert (0 <= z mod 256 < 256) as Hz by (apply Z.mod_pos_bound; lia).
  destruct (Byte.of_N (Z.to_N (z mod 256))) as [b |] eqn:Hb.
  - apply Byte.to_of_N in Hb. simpl. rewrite Hb, Z2N.id; lia.
  - apply Byte.of_N_None_iff in Hb. lia.
Qed.

Lemma u8_byte_val b : u8 (byte_val b) = b.
Proof.
  unfold u8. rewrite Z.mod_small by apply byte_val_range.
  unfold byte_val. by rewrite N2Z.id, Byte.of_to_N.
Qed.

Lemma byte_val_inj b c : byte_val b = byte_val c → b = c.
Proof. intros H. by rewrite <- (u8_byte_val b), H, u8_byte_val. Qed.

(** OR-ing a byte shifted to its place into a word whose lower bits are
    clear is an addition. *)
Lemma shl64_byte b k :
  0 <= k <= 56 → shl64 (byte_val b) k = byte_val b * 2 ^ k.
Proof.
  intros Hk. unfold shl64. rewrite Z.shiftl_mul_pow2 by lia.
  apply wrap64_small. pose proof (byte_val_range b) as Hb.
  assert (0 < 2 ^ k) by (apply Z.pow_pos_nonneg; lia).
  split; [nia |].
  apply Z.lt_le_trans with (256 * 2 ^ k); [nia |].
  change 256 with (2 ^ 8). rewrite <- Z.pow_add_r by lia.
  apply Z.pow_le_mono_r; lia.
Qed.

Lemma lor_low_add a v k :
  0 <= k → 0 <= v < 2 ^ k → a mod 2 ^ k = 0 → Z.lor a v = a + v.
Proof.
  intros Hk Hv Ha. symmetry. apply Z.add_nocarry_lor.
  apply Z.bits_inj'. intros i Hi. rewrite Z.land_spec, Z.bits_0.
  destruct (Z.lt_ge_cases i k).
  - rewrite <- (Z.mod_pow2_bits_low a k i), Ha, Z.bits_0 by lia. done.
  - rewrite <- (Z.mod_small v (2 ^ k)), Z.mod_pow2_bits_high by lia.
    apply andb_false_r.
Qed.

Ltac byte_ranges :=
  repeat match goal with
  | |- context [byte_val ?b] =>
      lazymatch goal with
      | _ : 0 <= byte_val b < 256 |- _ => fail
      | _ => pose proof (byte_val_range b)
      end
  end.

Ltac pow_numerals :=
  repeat match goal with
  | |- context [Z.pow ?a ?k] =>
      let v := eval cbv in (Z.pow a k) in change (Z.pow a k) with v
  end.

Lemma load64_be_cons b0 b1 b2 b3 b4 b5 b6 b7 rest :
  load64_be (b0 :: b1 :: b2 :: b3 :: b4 :: b5 :: b6 :: b7 :: rest)
  = Some (be64 [b0; b1; b2; b3; b4; b5; b6; b7]).
Proof.
  cbn [load64_be be64 fold_left]. f_equal.
  rewrite !shl64_byte by lia. byte_ranges.
  rewrite (lor_low_add _ (byte_val b1 * _) 56) by (pow_numerals; Z.div_mod_to_equations; lia).
  rewrite (lor_low_add _ (byte_val b2 * _) 48) by (pow_numerals; Z.div_mod_to_equations; lia).
  rewrite (lor_low_add _ (byte_val b3 * _) 40) by (pow_numerals; Z.div_mod_to_equations; lia).
  rewrite (lor_low_add _ (byte_val b4 * _) 32) by (pow_numerals; Z.div_mod_to_equations; lia).
  rewrite (lor_low_add _ (byte_val b5 * _) 24) by (pow_numerals; Z.div_mod_to_equations; lia).
  rewrite (lor_low_add _ (byte_val b6 * _) 16) by (pow_numerals; Z.div_mod_to_equations; lia).
  rewrite (lor_low_add _ (byte_val b7) 8) by (pow_numerals; Z.div_mod_to_equations; lia).
  pow_numerals. lia.
Qed.

Lemma load64_be_take p :
  (8 <= length p)%nat → load64_be p = Some (be64 (take 8 p)).
Proof.
  intros Hp.
  do 8 (destruct p as [| ? p]; [cbn in Hp; lia |]).
  apply load64_be_cons.
Qed.

Lemma load64_be_short p : (length p < 8)%nat → load64_be p = None.
Proof.
  intros Hp.
  do 8 (destruct p as [| ? p]; [done |]). cbn in Hp. lia.
Qed.

Lemma length_be_bytes x : length (be_bytes x) = 8%nat.
Proof. done. Qed.

(** Reading back the serialization of a word gives the word. *)
Lemma be64_be_bytes x : is_u64 x → be64 (be_bytes x) = x.
Proof.
  intros Hx. unfold be_bytes. cbn [seq map be64 fold_left Nat.sub Z.of_nat].
  rewrite !byte_val_u8. unfold is_u64 in Hx. revert Hx. pow_numerals.
  intros Hx. Z.div_mod_to_equations. lia.
Qed.

Lemma be_bytes_be64 bs : length bs = 8%nat → be_bytes (be64 bs) = bs.
Proof.
  intros Hbs.
  do 8 (destruct bs as [| ? bs]; [done |]). destruct bs; [| done].
  unfold be_bytes. cbn [seq map be64 fold_left Nat.sub Z.of_nat].
  repeat f_equal; apply byte_val_inj; rewrite byte_val_u8;
    byte_ranges; pow_numerals; Z.div_mod_to_equations; lia.
Qed.

Lemma store64_be_app l1 c0 c1 c2 c3 c4 c5 c6 c7 l2 x :
  store64_be (l1 ++ c0 :: c1 :: c2 :: c3 :: c4 :: c5 :: c6 :: c7 :: l2)
    (length l1) x
  = Some (l1 ++ be_bytes x ++ l2).
Proof.
  unfold store64_be, poke.
  repeat (rewrite decide_True
            by (rewrite ?length_insert, length_app; cbn [length]; lia);
          cbn [mbind option_bind]).
  f_equal.
  rewrite (insert_app_r_alt l1 _ (length l1)) by lia.
  rewrite Nat.sub_diag. cbn [insert list_insert].
  rewrite !insert_app_r. cbn [insert list_insert].
  unfold be_bytes. cbn [seq map Nat.sub Z.of_nat app].
  rewrite !Z.shiftr_div_pow2 by lia. pow_numerals.
  by rewrite Z.div_1_r.
Qed.

(** The eight writes of [store64_be] are in bounds when the buffer has
    eight bytes from [off] on; they replace exactly these bytes, by the
    serialization of the word. *)
Lemma store64_be_spec p off x :
  (off + 8 <= length p)%nat →
  store64_be p off x = Some (take off p ++ be_bytes x ++ drop (off + 8) p).
Proof.
  intros Hp.
  rewrite <- (take_drop off p) at 1. rewrite <- (drop_drop p 8 off).
  assert (length (take off p) = off) as Hl by (rewrite length_take; lia).
  assert (8 <= length (drop off p))%nat as Hq by (rewrite length_drop; lia).
  destruct (drop off p) as [| c0 q]; [cbn in Hq; lia |].
  do 7 (destruct q as [| ? q]; [cbn in Hq; lia |]).
  rewrite <- Hl at 2. rewrite store64_be_app. by cbn [drop].
Qed.

Lemma be64_fold_bound bs acc :
  0 <= acc →
  0 <= fold_left (fun a b => a * 256 + byte_val b) bs acc
    < (acc + 1) * 256 ^ Z.of_nat (length bs).
Proof.
  revert acc. induction bs as [| b bs IH]; intros acc Hacc.
  - cbn. lia.
  - cbn [fold_left length]. pose proof (byte_val_range b) as Hb.
    specialize (IH (acc * 256 + byte_val b) ltac:(lia)).
    rewrite Nat2Z.inj_succ, Z.pow_succ_r by lia.
    assert (0 < 256 ^ Z.of_nat (length bs)) by (apply Z.pow_pos_nonneg; lia).
    nia.
Qed.

Lemma word_at_is_u64 p off : is_u64 (word_at p off).
Proof.
  unfold word_at, be64, is_u64.
  pose proof (be64_fold_bound (take 8 (drop off p)) 0 ltac:(lia)) as H.
  assert (length (take 8 (drop off p)) <= 8)%nat as Hl
    by (rewrite length_take; lia).
  assert (256 ^ Z.of_nat (length (take 8 (drop off p))) <= 256 ^ 8)
    by (apply Z.pow_le_mono_r; lia).
  change (2 ^ 64) with (256 ^ 8). lia.
Qed.

(** ** Replaying a log *)

Lemma replay_app l1 l2 s :
  replay (l1 ++ l2) s = replay l1 s ≫= replay l2.
Proof.
  revert s. induction l1 as [| e l1 IH]; intros s; [done |].
  cbn [replay app]. destruct (apply_event e s) as [s' |]; [| done].
  cbn [mbind option_bind]. apply IH.
Qed.

Lemma apply_event_ok e s :
  event_ok e → wf_state s →
  ∃ s', apply_event e s = Some s' ∧ wf_state s'.
Proof.
  destruct e as [j o v | j o v | r]; cbn [event_ok apply_event];
    intros He Hs.
  - eexists; split; [done |]. by apply wf_state_sset.
  - eexists; split; [done |]. by apply wf_state_sxor.
  - rewrite ascon_permutation_last_constants by done.
    eexists; split; [done |].
    apply wf_state_fold_rounds; [| done].
    apply Forall_drop, Forall_is_u64_RC.
Qed.

Lemma replay_ok evs s :
  Forall event_ok evs → wf_state s →
  ∃ s', replay evs s = Some s' ∧ wf_state s'.
Proof.
  intros Hevs. revert s.
  induction Hevs as [| e evs He _ IH]; intros s Hs; [by exists s |].
  destruct (apply_event_ok e s He Hs) as (s1 & H1 & Hwf1).
  cbn [replay]. rewrite H1. cbn [mbind option_bind]. by apply IH.
Qed.

(** The five assignments of the initialization determine the state,
    whatever the local held before. *)
Lemma replay_init_events key s :
  replay (init_events key) s
  = Some (P12 (State IV (word_at key 0) (word_at key 8) 0 0)).
Proof.
  destruct s. unfold init_events.
  cbn [replay apply_event mbind option_bind sset x0 x1 x2 x3 x4].
  apply ascon_permutation_12.
Qed.

Lemma Forall_event_ok_block r p off :
  Forall event_ok (block_events r p off).
Proof.
  unfold block_events.
  repeat (apply Forall_cons_2; [apply word_at_is_u64 |]). apply Forall_nil_2.
Qed.

Lemma Forall_event_ok_absorb msg len :
  Forall event_ok (absorb_events msg len).
Proof.
  unfold absorb_events. apply Forall_app. split.
  - apply Forall_flat_map, Forall_forall. intros i _.
    apply Forall_app. split; [apply Forall_event_ok_block |].
    apply Forall_cons_2; [cbn; lia | apply Forall_nil_2].
  - apply Forall_app. split; [apply Forall_event_ok_block |].
    apply Forall_cons_2; [done |].
    apply Forall_cons_2; [cbn; lia | apply Forall_nil_2].
Qed.

(** The whole log replays, from any initial contents of [s], and leaves
    five words. *)
Lemma replay_mac_events key msg len s :
  ∃ sF, replay (mac_events key msg len) s = Some sF ∧ wf_state sF.
Proof.
  unfold mac_events. rewrite replay_app, replay_init_events.
  cbn [mbind option_bind].
  apply replay_ok; [apply Forall_event_ok_absorb |].
  apply wf_state_P12. unfold wf_state. cbn [x0 x1 x2 x3 x4].
  pose proof (word_at_is_u64 key 0). pose proof (word_at_is_u64 key 8).
  assert (is_u64 IV) by (by split).
  assert (is_u64 0) by (by split).
  tauto.
Qed.

(** ** The steps of the machine *)

Lemma exec_events_nil m : exec_events [] m = Some m.
Proof.
  destruct m. unfold exec_events. cbn. by rewrite app_nil_r.
Qed.

(** What a run of logged steps leaves alone. *)
Lemma exec_events_frame evs m m' :
  exec_events evs m = Some m' →
  m_key m' = m_key m ∧ m_msg m' = m_msg m ∧ m_tag m' = m_tag m ∧
  m_buf m' = m_buf m ∧ m_log m' = m_log m ++ evs ∧
  replay evs (m_s m) = Some (m_s m').
Proof.
  unfold exec_events. destruct (replay evs (m_s m)) as [s' |]; [| done].
  cbn [mbind option_bind]. intros [= <-]. by cbn.
Qed.

(** A step that behaves as the logged steps [l2] on every machine with the
    buffers of [m] extends a run of [l1]. *)
Lemma exec_events_seq l1 l2 (f : machine → option machine) m :
  (∀ m', m_key m' = m_key m → m_msg m' = m_msg m → m_buf m' = m_buf m →
         f m' = exec_events l2 m') →
  exec_events l1 m ≫= f = exec_events (l1 ++ l2) m.
Proof.
  intros Hf. destruct (exec_events l1 m) as [m1 |] eqn:H1.
  - destruct (exec_events_frame _ _ _ H1) as (Hk & Hm & Ht & Hb & Hl & Hs).
    cbn [mbind option_bind]. rewrite Hf by done.
    unfold exec_events. rewrite replay_app, Hs. cbn [mbind option_bind].
    by rewrite Hk, Hm, Ht, Hb, Hl, app_assoc.
  - cbn [mbind option_bind]. unfold exec_events in *.
    rewrite replay_app. by destruct (replay l1 (m_s m)).
Qed.

Lemma exec_events_app l1 l2 m :
  exec_events (l1 ++ l2) m = exec_events l1 m ≫= exec_events l2.
Proof. symmetry. by apply exec_events_seq. Qed.

Lemma eval_operand_load m r (off : nat) z :
  z = Z.of_nat off → (off + 8 <= length (region_bytes m r))%nat →
  eval_operand m (Load64 r z) = Some (word_at (region_bytes m r) off).
Proof.
  intros -> Hoff. cbn [eval_operand].
  destruct (Z.leb_spec 0 (Z.of_nat off)); [| lia].
  rewrite Nat2Z.id. apply load64_be_take. rewrite length_drop. lia.
Qed.

Lemma assign_lit j c m :
  (j < 5)%nat → assign j (Lit c) m = exec_events [Assign j (Lit c) c] m.
Proof. intros Hj. unfold assign. by rewrite decide_True by done. Qed.

Lemma assign_load j r (off : nat) z m :
  (j < 5)%nat → z = Z.of_nat off →
  (off + 8 <= length (region_bytes m r))%nat →
  assign j (Load64 r z) m
  = exec_events [Assign j (Load64 r z) (word_at (region_bytes m r) off)] m.
Proof.
  intros Hj Hz Hoff. unfold assign. rewrite decide_True by done.
  by rewrite (eval_operand_load m r off z).
Qed.

Lemma xor_assign_lit j c m :
  (j < 5)%nat →
  xor_assign j (Lit c) m = exec_events [XorAssign j (Lit c) c] m.
Proof. intros Hj. unfold xor_assign. by rewrite decide_True by done. Qed.

Lemma xor_assign_load j r (off : nat) z m :
  (j < 5)%nat → z = Z.of_nat off →
  (off + 8 <= length (region_bytes m r))%nat →
  xor_assign j (Load64 r z) m
  = exec_events [XorAssign j (Load64 r z) (word_at (region_bytes m r) off)] m.
Proof.
  intros Hj Hz Hoff. unfold xor_assign. rewrite decide_True by done.
  by rewrite (eval_operand_load m r off z).
Qed.

Lemma permute_events rounds m :
  permute rounds m = exec_events [Permute rounds] m.
Proof.
  unfold permute, exec_events. cbn [replay apply_event].
  by destruct (ascon_permutation (m_s m) rounds).
Qed.

Lemma region_bytes_frame m m' r :
  m_key m' = m_key m → m_msg m' = m_msg m → m_buf m' = m_buf m →
  region_bytes m' r = region_bytes m r.
Proof. intros Hk Hm Hb. by destruct r. Qed.

(** Moving the next statement of a sequence into the run before it. *)
Lemma exec_events_step l e (a k : machine → option machine) m :
  (∀ m', m_key m' = m_key m → m_msg m' = m_msg m → m_buf m' = m_buf m →
         a m' = exec_events [e] m') →
  exec_events l m ≫= (λ m', a m' ≫= k) = exec_events (l ++ [e]) m ≫= k.
Proof.
  intros Ha. rewrite (exec_events_app l [e]).
  destruct (exec_events l m) as [m1 |] eqn:H1; [| done].
  destruct (exec_events_frame _ _ _ H1) as (Hk & Hm & Ht & Hb & Hl & Hs).
  cbn [mbind option_bind]. by rewrite Ha.
Qed.

(** [step lem] absorbs the next statement, whose effect is given by the
    equation [lem], into the run on the left of the bind. *)
Ltac use_step lem :=
  let m' := fresh "m'" in
  let Hk := fresh "Hk" in
  let Hm := fresh "Hm" in
  let Hb := fresh "Hb" in
  intros m' Hk Hm Hb; rewrite lem;
  [ rewrite ?(region_bytes_frame _ m' _ Hk Hm Hb); reflexivity
  | rewrite ?(region_bytes_frame _ m' _ Hk Hm Hb);
    try (done || (cbn [region_bytes]; lia)) .. ].

Ltac step lem := erewrite exec_events_step; [| use_step lem ].

Ltac last_step lem := erewrite exec_events_seq; [| use_step lem ].

(** ** The absorb loop *)

Lemma absorb_block_events (i : nat) m :
  (32 * i + 32 <= length (m_msg m))%nat → Z.of_nat (32 * i) < 2 ^ 64 →
  absorb_block (Z.of_nat i) m
  = exec_events (full_block_events (m_msg m) i) m.
Proof.
  intros Hlen Hi. unfold absorb_block. cbv zeta.
  replace (wrap64 (Z.of_nat i * 32)) with (Z.of_nat (32 * i))
    by (rewrite wrap64_small; [lia | unfold is_u64; lia]).
  rewrite (xor_assign_load 0 MsgMem (32 * i)) by (done || cbn; lia).
  step (xor_assign_load 1 MsgMem (32 * i + 8)).
  step (xor_assign_load 2 MsgMem (32 * i + 16)).
  step (xor_assign_load 3 MsgMem (32 * i + 24)).
  last_step permute_events.
  done.
Qed.

(** [n] iterations from index [i] absorb the blocks [i .. i + n - 1]. *)
Lemma absorb_loop_events (n i : nat) m :
  (32 * (i + n) <= length (m_msg m))%nat →
  Z.of_nat (32 * (i + n)) < 2 ^ 64 →
  absorb_loop n (Z.of_nat i) (Z.of_nat (i + n)) m
  = exec_events (flat_map (full_block_events (m_msg m)) (seq i n)) m.
Proof.
  revert i m. induction n as [| n IH]; intros i m Hlen Hi.
  - cbn [absorb_loop seq flat_map].
    destruct (Z.ltb_spec (Z.of_nat i) (Z.of_nat (i + 0))); [lia |].
    by rewrite exec_events_nil.
  - cbn [absorb_loop seq flat_map].
    destruct (Z.ltb_spec (Z.of_nat i) (Z.of_nat (i + S n))); [| lia].
    rewrite absorb_block_events by lia.
    apply exec_events_seq. intros m' _ Hm _.
    replace (wrap64 (Z.of_nat i + 1)) with (Z.of_nat (S i))
      by (rewrite wrap64_small; [lia | unfold is_u64; lia]).
    replace (i + S n)%nat with (S i + n)%nat by lia.
    rewrite IH, Hm by (rewrite ?Hm; lia). done.
Qed.

(** ** The final block *)

Lemma poke_after_copy (src : list byte) (r : nat) :
  (r <= length src)%nat → (r < 32)%nat →
  poke (take r src ++ drop r (replicate 32 x00)) r x80
  = Some (take r src ++ x80 :: replicate (31 - r) x00).
Proof.
  intros Hsrc Hr. unfold poke.
  assert (length (take r src) = r) as Hl by (rewrite length_take; lia).
  rewrite decide_True
    by (rewrite length_app, length_drop, length_replicate; lia).
  f_equal. rewrite insert_app_r_alt by lia. rewrite Hl, Nat.sub_diag.
  rewrite drop_replicate.
  replace (32 - r)%nat with (S (31 - r)) by lia. done.
Qed.

(** ** The run of [ascon_mac] *)

Lemma length_pad_block msg len :
  0 <= len <= Z.of_nat (length msg) → length (pad_block msg len) = 32%nat.
Proof.
  intros Hlen. unfold pad_block. cbv zeta.
  assert (0 <= len mod 32 < 32) by (apply Z.mod_pos_bound; lia).
  assert (len = 32 * (len / 32) + len mod 32) by (apply Z.div_mod; lia).
  rewrite length_app, length_take, length_drop. cbn [length].
  rewrite length_replicate. lia.
Qed.

Lemma exec_events_Some evs m s' :
  replay evs (m_s m) = Some s' →
  exec_events evs m
  = Some (Machine (m_key m) (m_msg m) (m_tag m) s' (m_buf m)
            (m_log m ++ evs)).
Proof. unfold exec_events. by intros ->. Qed.

Lemma absorb_loop_all q m :
  0 <= q → 32 * q <= Z.of_nat (length (m_msg m)) → 32 * q < 2 ^ 64 →
  absorb_loop (Z.to_nat q) 0 q m
  = exec_events
      (flat_map (full_block_events (m_msg m)) (seq 0 (Z.to_nat q))) m.
Proof.
  intros Hq Hlen H64.
  pose proof (absorb_loop_events (Z.to_nat q) 0 m) as H.
  rewrite Nat.add_0_l, Z2Nat.id in H by done.
  apply H; lia.
Qed.

(** The statements from the first XOR of the final block to the end. *)
Lemma final_phase m sF :
  length (m_buf m) = 32%nat → (16 <= length (m_tag m))%nat →
  replay (final_events (m_buf m)) (m_s m) = Some sF →
  (m ← xor_assign 0 (Load64 BufMem 0) m;
   m ← xor_assign 1 (Load64 BufMem 8) m;
   m ← xor_assign 2 (Load64 BufMem 16) m;
   m ← xor_assign 3 (Load64 BufMem 24) m;
   m ← xor_assign 4 (Lit 1) m;
   m ← permute 12 m;
   t ← store64_be (m_tag m) 0 (sget (m_s m) 0);
   t ← store64_be t 8 (sget (m_s m) 1);
   Some (with_tag m t))
  = Some (Machine (m_key m) (m_msg m)
            (be_bytes (sget sF 0) ++ be_bytes (sget sF 1)
               ++ drop 16 (m_tag m))
            sF (m_buf m) (m_log m ++ final_events (m_buf m))).
Proof.
  intros Hbuf Htag HsF.
  rewrite (xor_assign_load 0 BufMem 0) by (done || cbn; lia).
  step (xor_assign_load 1 BufMem 8).
  step (xor_assign_load 2 BufMem 16).
  step (xor_assign_load 3 BufMem 24).
  step (xor_assign_lit 4).
  step permute_events.
  rewrite (exec_events_Some _ _ sF) by exact HsF.
  cbn [mbind option_bind m_tag m_s].
  rewrite store64_be_spec by lia. cbn [mbind option_bind].
  rewrite take_0, Nat.add_0_l, app_nil_l.
  rewrite store64_be_spec
    by (rewrite !length_app, !length_be_bytes, length_drop; lia).
  unfold with_tag.
  cbn [mbind option_bind m_key m_msg m_tag m_s m_buf m_log].
  rewrite (take_app_length' (be_bytes (sget sF 0))) by done.
  rewrite (drop_app_add' (be_bytes (sget sF 0)) _ 8 8) by done.
  by rewrite drop_drop.
Qed.

Lemma ascon_mac_run_safe len m :
  mac_safe len m →
  ∃ sF, replay (mac_events (m_key m) (m_msg m) len) (m_s m) = Some sF ∧
        wf_state sF ∧ ascon_mac len m = Some (final_machine len m sF).
Proof.
  intros (Hkey & [Hlen0 Hlen] & Hlen64 & Htag).
  destruct (replay_mac_events (m_key m) (m_msg m) len (m_s m))
    as (sF & HsF & HwfF).
  exists sF. split; [done |]. split; [done |].
  set (q := len / 32). set (r := len mod 32).
  assert (0 <= r < 32) as Hr by (apply Z.mod_pos_bound; lia).
  assert (len = 32 * q + r) as Hqr by (apply Z.div_mod; lia).
  assert (0 <= q) as Hq by (apply Z.div_pos; lia).
  (* the three parts of the log and the states between them *)
  pose proof HsF as Hparts. unfold mac_events, absorb_events in Hparts.
  rewrite replay_app, replay_init_events in Hparts.
  cbn [mbind option_bind] in Hparts. rewrite replay_app in Hparts.
  fold q in Hparts.
  set (s1 := P12 (State IV (word_at (m_key m) 0) (word_at (m_key m) 8) 0 0))
    in Hparts.
  destruct (replay (flat_map (full_block_events (m_msg m))
                      (seq 0 (Z.to_nat q))) s1) as [s2 |] eqn:Hs2;
    [| done].
  cbn [mbind option_bind] in Hparts.
  (* initialization *)
  unfold ascon_mac.
  rewrite (assign_lit 0) by lia.
  step (assign_load 1 KeyMem 0).
  step (assign_load 2 KeyMem 8).
  step (assign_lit 3).
  step (assign_lit 4).
  step permute_events.
  rewrite (exec_events_Some _ _ s1) by apply replay_init_events.
  cbn [mbind option_bind]. fold q.
  (* the complete blocks *)
  rewrite absorb_loop_all by (cbn [m_msg]; lia).
  rewrite (exec_events_Some _ _ s2) by exact Hs2.
  cbn [mbind option_bind m_key m_msg m_tag m_s m_buf m_log with_buf].
  (* the final block *)
  assert (wrap64 (q * 32) = 32 * q) as ->
    by (rewrite wrap64_small; [lia | unfold is_u64; lia]).
  assert (wrap64 (len - 32 * q) = r) as ->
    by (rewrite wrap64_small; [lia | unfold is_u64; lia]).
  set (src := drop (Z.to_nat (32 * q)) (m_msg m)).
  assert (Z.to_nat r <= length src)%nat as Hsrc
    by (unfold src; rewrite length_drop; lia).
  assert (pad_block (m_msg m) len
          = take (Z.to_nat r) src ++ x80 :: replicate (31 - Z.to_nat r) x00)
    as Hpad by done.
  pose proof (length_pad_block (m_msg m) len ltac:(lia)) as Hpadlen.
  destruct (Z.ltb_spec 0 r) as [Hr0 | Hr0].
  - unfold memcpy. rewrite decide_True by (rewrite length_replicate; lia).
    cbn [mbind option_bind m_key m_msg m_tag m_s m_buf m_log with_buf].
    rewrite poke_after_copy by lia. rewrite <- Hpad.
    cbn [mbind option_bind].
    rewrite (final_phase _ sF) by done.
    unfold final_machine, mac_events, absorb_events, init_events, with_buf.
    cbn [m_key m_msg m_tag m_s m_buf m_log region_bytes]. fold q.
    by rewrite <- !app_assoc.
  - assert (r = 0) as Hr00 by lia.
    cbn [mbind option_bind m_key m_msg m_tag m_s m_buf m_log with_buf].
    change (replicate 32 x00)
      with (take 0 src ++ drop 0 (replicate 32 x00)).
    rewrite Hr00 in Hpad |- *. change (Z.to_nat 0) with 0%nat in Hpad |- *.
    rewrite poke_after_copy by lia. rewrite <- Hpad.
    cbn [mbind option_bind].
    rewrite (final_phase _ sF) by done.
    unfold final_machine, mac_events, absorb_events, init_events, with_buf.
    cbn [m_key m_msg m_tag m_s m_buf m_log region_bytes]. fold q.
    by rewrite <- !app_assoc.
Qed.

Lemma ascon_mac_run len m :
  mac_pre len m →
  ∃ sF, replay (mac_events (m_key m) (m_msg m) len) (m_s m) = Some sF ∧
        wf_state sF ∧ ascon_mac len m = Some (final_machine len m sF).
Proof.
  intros (Hkey & Hrest). apply ascon_mac_run_safe.
  split; [lia | exact Hrest].
Qed.

(** * Specification of the permutation *)

(** Reading a temporary late changes the result: the order the source
    computes them in is not a matter of style. *)
Lemma substitution_late_differs :
  substitution_late (State 1 0 3 0 0) ≠ pS (State 1 0 3 0 0).
Proof. by vm_compute. Qed.

(** C4: in every round the substitution layer is the three leading XORs
    [s[0]^=s[4]; s[4]^=s[3]; s[2]^=s[1]], then the five temporaries
    [t_j = ~s[j] & s[(j+1) mod 5]] all taken from the state these XORs
    produce, then [s[0]^=t1; s[1]^=t2; s[2]^=t3; s[3]^=t4; s[4]^=t0], then
    [s[1]^=s[0]; s[0]^=s[4]; s[3]^=s[2]; s[2]=~s[2]]; a round is the
    constant addition, this layer and the diffusion layer, in this order. *)
Theorem substitution_layer_order (s : state) :
  pS s = substitution_spec s ∧
  (∀ j, (j < 5)%nat →
        sbox_t (sbox_pre s) j
        = Z.land (not64 (sget (sbox_pre s) j))
                 (sget (sbox_pre s) ((j + 1) mod 5))) ∧
  (∀ i, round i s = c ← RC_at i; Some (pL (substitution_spec (pC c s)))).
Proof.
  assert (∀ s', pS s' = substitution_spec s') as HpS.
  { intros s'. by destruct s'. }
  split; [apply HpS |]. split; [done |].
  intros i. unfold round. destruct (RC_at i) as [c |]; [| done].
  cbn [mbind option_bind]. by rewrite HpS.
Qed.

Lemma sget_pL s :
  pL s = State
    (Z.lxor (x0 s) (Z.lxor (ror64 (x0 s) 19) (ror64 (x0 s) 28)))
    (Z.lxor (x1 s) (Z.lxor (ror64 (x1 s) 61) (ror64 (x1 s) 39)))
    (Z.lxor (x2 s) (Z.lxor (ror64 (x2 s) 1) (ror64 (x2 s) 6)))
    (Z.lxor (x3 s) (Z.lxor (ror64 (x3 s) 10) (ror64 (x3 s) 17)))
    (Z.lxor (x4 s) (Z.lxor (ror64 (x4 s) 7) (ror64 (x4 s) 41))).
Proof. by destruct s. Qed.



Lemma rounds_over_seqZ (n k : nat) s :
  (k + n = 12)%nat →
  rounds_over (seqZ (Z.of_nat k) (Z.of_nat n)) s
  = Some (fold_left round_with (drop k RC) s).
Proof.
  revert k s. induction n as [| n IH]; intros k s Hk.
  - by rewrite drop_ge by (cbn; lia).
  - rewrite Nat2Z.inj_succ, seqZ_cons by lia. cbn [rounds_over].
    unfold round. rewrite RC_at_lookup by lia.
    destruct (lookup_lt_is_Some_2 RC k) as [c Hc]; [cbn; lia |].
    rewrite Hc. cbn [mbind option_bind].
    replace (Z.succ (Z.of_nat k)) with (Z.of_nat (S k)) by lia.
    rewrite Z.pred_succ, IH by lia.
    by rewrite (drop_S RC c k Hc).
Qed.

(** C6: for [0 < rounds <= 12] the loop runs the rounds at the indices
    [12 - rounds, .., 11], [rounds] of them; their constants are the last
    [rounds] entries of the table, and each round starts with
    [s[2] ^= RC[i]] before the substitution and diffusion layers. *)
Theorem ascon_permutation_rounds (s : state) (rounds : Z) :
  0 < rounds <= 12 →
  ascon_permutation s rounds
  = rounds_over (seqZ (12 - rounds) rounds) s ∧
  ascon_permutation s rounds
  = Some (fold_left (fun st c => pL (pS (sxor st 2 c)))
            (last_constants rounds) s) ∧
  length (last_constants rounds) = Z.to_nat rounds ∧
  RC = take (Z.to_nat (12 - rounds)) RC ++ last_constants rounds ∧
  (∀ k, 0 <= k < rounds →
        RC_at (12 - rounds + k) = last_constants rounds !! Z.to_nat k) ∧
  (∀ i st, 12 - rounds <= i <= 11 →
        ∃ c, RC !! Z.to_nat i = Some c ∧
             round i st = Some (pL (pS (sxor st 2 c)))).
Proof.
  intros Hr.
  split; [| split; [| split; [| split; [| split]]]].
  - rewrite ascon_permutation_last_constants by lia.
    pose proof (rounds_over_seqZ (Z.to_nat rounds) (Z.to_nat (12 - rounds)) s)
      as H.
    rewrite !Z2Nat.id in H by lia. by rewrite H by lia.
  - by rewrite ascon_permutation_last_constants by lia.
  - unfold last_constants. rewrite length_drop. cbn [length RC]. lia.
  - unfold last_constants. by rewrite take_drop.
  - intros k Hk. unfold last_constants. rewrite lookup_drop.
    replace (12 - rounds + k)
      with (Z.of_nat (Z.to_nat (12 - rounds) + Z.to_nat k)) by lia.
    apply RC_at_lookup. lia.
  - intros i st Hi.
    destruct (lookup_lt_is_Some_2 RC (Z.to_nat i)) as [c Hc];
      [cbn; lia |].
    exists c. split; [done |]. unfold round.
    replace i with (Z.of_nat (Z.to_nat i)) at 1 by lia.
    rewrite RC_at_lookup, Hc by lia. done.
Qed.

(** Six rounds: the indices 6..11 and the last six constants. *)
Lemma ascon_permutation_rounds_witness :
  0 < 6 <= 12 ∧
  ascon_permutation (State 1 2 3 4 5) 6
  = rounds_over (seqZ (12 - 6) 6) (State 1 2 3 4 5).
Proof.
  split; [lia |].
  apply (ascon_permutation_rounds (State 1 2 3 4 5) 6). lia.
Defined.

(** C10: with [rounds = 0] the loop starts at index 12, runs no
    iteration, and the state is returned as it was. *)
Theorem ascon_permutation_zero_rounds (s : state) :
  ascon_permutation s 0 = Some s ∧
  (∀ fuel, perm_loop fuel (12 - 0) s = Some s).
Proof.
  split; [by apply ascon_permutation_nonpos |].
  intros fuel. by destruct fuel.
Qed.

(** * Specification of [ascon_mac] *)

(** ** The shape of the log *)

Lemma ascon_mac_log len m :
  mac_pre len m →
  ∃ m', ascon_mac len m = Some m' ∧
        m' = final_machine len m (m_s m') ∧
        new_events m m' = mac_events (m_key m) (m_msg m) len ∧
        replay (mac_events (m_key m) (m_msg m) len) (m_s m)
        = Some (m_s m') ∧
        wf_state (m_s m').
Proof.
  intros Hpre. destruct (ascon_mac_run len m Hpre) as (sF & Hre & Hwf & Hrun).
  exists (final_machine len m sF).
  split; [done |]. split; [done |]. split; [| by split].
  unfold new_events, final_machine. cbn [m_log].
  by rewrite drop_app_length.
Qed.

(** ** The state the log stands for *)

Lemma replay_full_block msg i s :
  replay (full_block_events msg i) s
  = Some (P12 (absorb_words s msg (32 * i))).
Proof.
  destruct s. unfold full_block_events, block_events, absorb_words.
  cbn [app replay apply_event mbind option_bind sxor sset sget
       x0 x1 x2 x3 x4].
  apply ascon_permutation_12.
Qed.

Lemma replay_blocks msg (n i : nat) s :
  replay (flat_map (full_block_events msg) (seq i n)) s
  = Some (fold_left (fun st k => P12 (absorb_words st msg (32 * k)))
            (seq i n) s).
Proof.
  revert i s. induction n as [| n IH]; intros i s; [done |].
  cbn [seq flat_map fold_left].
  rewrite replay_app, replay_full_block. cbn [mbind option_bind].
  apply IH.
Qed.

Lemma replay_final_events buf s :
  replay (final_events buf) s = Some (P12 (absorb_final s buf)).
Proof.
  destruct s. unfold final_events, block_events, absorb_final.
  cbn [app replay apply_event mbind option_bind sxor sset sget
       x0 x1 x2 x3 x4 Nat.add].
  apply ascon_permutation_12.
Qed.

Lemma mbind_Some_eq {A B : Type} (x : A) (f : A → option B) :
  Some x ≫= f = f x.
Proof. reflexivity. Qed.

Lemma replay_blocks_state key msg (k : nat) s :
  replay (init_events key ++ flat_map (full_block_events msg) (seq 0 k)) s
  = Some (blocks_state key msg k).
Proof.
  rewrite replay_app, replay_init_events, mbind_Some_eq.
  unfold blocks_state. apply replay_blocks.
Qed.

(** The state a replay of the whole log ends in: the initialization, one
    XOR-and-permute per complete block, then the final block with the
    flip of [s[4]]. *)
Lemma replay_mac_events_state key msg len s :
  replay (mac_events key msg len) s
  = Some (P12 (absorb_final (blocks_state key msg (Z.to_nat (len / 32)))
                 (pad_block msg len))).
Proof.
  unfold mac_events, absorb_events.
  rewrite app_assoc, replay_app, replay_blocks_state, mbind_Some_eq.
  apply replay_final_events.
Qed.

Section BlockFilters.

Variable msg : list byte.

Lemma filter_blocks (f : event → bool) (g : list event) (l : list nat) :
  (∀ i, List.filter f (full_block_events msg i) = g) →
  List.filter f (flat_map (full_block_events msg) l)
  = flat_map (fun _ => g) l.
Proof.
  intros Hf. induction l as [| i l IH]; [done |].
  cbn [flat_map]. by rewrite List.filter_app, Hf, IH.
Qed.

Lemma length_flat_map_const (g : list event) (l : list nat) :
  length (flat_map (fun _ => g) l) = (length l * length g)%nat.
Proof.
  induction l as [| i l IH]; [done |].
  cbn [flat_map length]. rewrite length_app, IH. lia.
Qed.

Lemma flat_map_const_nil (l : list nat) :
  flat_map (fun _ => @nil event) l = [].
Proof. by induction l. Qed.

Lemma Forall_rate_only_blocks (l : list nat) :
  Forall rate_only (flat_map (full_block_events msg) l).
Proof.
  apply Forall_flat_map, Forall_forall. intros i _.
  unfold full_block_events, block_events. cbn [app].
  repeat (apply Forall_cons_2; [cbn; intros; lia || done |]).
  apply Forall_nil_2.
Qed.

End BlockFilters.

Lemma Forall_rate_only_mac key msg len :
  Forall rate_only (mac_events key msg len).
Proof.
  unfold mac_events, absorb_events. apply Forall_app. split.
  - unfold init_events.
    repeat (apply Forall_cons_2; [cbn; intros; lia || done |]).
    apply Forall_nil_2.
  - apply Forall_app. split; [apply Forall_rate_only_blocks |].
    unfold final_events, block_events. cbn [app].
    repeat (apply Forall_cons_2; [cbn; intros; lia || done |]).
    apply Forall_nil_2.
Qed.

(** ** C1 *)

(** C1: for a 16-byte key and any message, [ascon_mac] first sets
    [s] to the IV 0x80808C0000000080 (not 0x8080840000000080), the two
    big-endian words of the key and two zero words, then runs the
    12-round permutation; two calls with the same key, whatever their
    messages, lengths and prior contents of the locals, log the same six
    steps and reach the same state after them.  The log is the account
    of the state of each run: replaying it from the contents [s] had on
    entry gives the state the run ends in, and so does replaying the
    steps after the sixth from the state [s1] the initialization
    reaches. *)
Theorem init_state_from_key len m len' m' :
  mac_pre len m → mac_pre len' m' → m_key m' = m_key m →
  let k0 := be64 (take 8 (m_key m)) in
  let k1 := be64 (take 8 (drop 8 (m_key m))) in
  let init :=
    [ Assign 0 (Lit 0x80808C0000000080) 0x80808C0000000080;
      Assign 1 (Load64 KeyMem 0) k0;
      Assign 2 (Load64 KeyMem 8) k1;
      Assign 3 (Lit 0) 0;
      Assign 4 (Lit 0) 0;
      Permute 12 ] in
  let s_init := State 0x80808C0000000080 k0 k1 0 0 in
  ∃ mF mF' s1,
    ascon_mac len m = Some mF ∧ ascon_mac len' m' = Some mF' ∧
    take 6 (new_events m mF) = init ∧ take 6 (new_events m' mF') = init ∧
    load64_be (m_key m) = Some k0 ∧
    load64_be (drop 8 (m_key m)) = Some k1 ∧
    ascon_permutation s_init 12 = Some s1 ∧
    replay init (m_s m) = Some s1 ∧ replay init (m_s m') = Some s1 ∧
    0x80808C0000000080 ≠ 0x8080840000000080 ∧
    replay (new_events m mF) (m_s m) = Some (m_s mF) ∧
    replay (new_events m' mF') (m_s m') = Some (m_s mF') ∧
    new_events m mF = init ++ drop 6 (new_events m mF) ∧
    new_events m' mF' = init ++ drop 6 (new_events m' mF') ∧
    replay (drop 6 (new_events m mF)) s1 = Some (m_s mF) ∧
    replay (drop 6 (new_events m' mF')) s1 = Some (m_s mF').
Proof.
  intros Hpre Hpre' Hkey. cbv zeta.
  destruct (ascon_mac_log len m Hpre) as (mF & Hrun & _ & Hlog & Hre & _).
  destruct (ascon_mac_log len' m' Hpre')
    as (mF' & Hrun' & _ & Hlog' & Hre' & _).
  destruct Hpre as (Hlen & _).
  rewrite Hkey in Hlog', Hre'.
  assert (∀ msg l,
            drop 6 (mac_events (m_key m) msg l) = absorb_events msg l)
    as Hdrop by done.
  assert (∀ msg l s sF,
            replay (mac_events (m_key m) msg l) s = Some sF →
            replay (absorb_events msg l)
              (P12 (State IV (word_at (m_key m) 0) (word_at (m_key m) 8)
                      0 0))
            = Some sF) as Hrest.
  { intros msg l s sF H. unfold mac_events in H.
    rewrite replay_app, replay_init_events in H. exact H. }
  exists mF, mF',
    (P12 (State IV (word_at (m_key m) 0) (word_at (m_key m) 8) 0 0)).
  split; [done |]. split; [done |].
  split; [by rewrite Hlog |]. split; [by rewrite Hlog' |].
  split; [apply load64_be_take; lia |].
  split; [apply load64_be_take; rewrite length_drop; lia |].
  split; [apply ascon_permutation_12 |].
  split; [apply replay_init_events |].
  split; [apply replay_init_events |]. split; [done |].
  split; [by rewrite Hlog |]. split; [by rewrite Hlog' |].
  split; [by rewrite Hlog, Hdrop |]. split; [by rewrite Hlog', Hdrop |].
  split.
  - rewrite Hlog, Hdrop. by apply (Hrest _ _ (m_s m)).
  - rewrite Hlog', Hdrop. by apply (Hrest _ _ (m_s m')).
Qed.

Lemma init_state_from_key_witness :
  mac_pre 33 sample_machine ∧ mac_pre 0 sample_machine' ∧
  m_key sample_machine' = m_key sample_machine ∧
  ∃ mF mF', ascon_mac 33 sample_machine = Some mF ∧
            ascon_mac 0 sample_machine' = Some mF' ∧
            take 6 (new_events sample_machine mF)
            = take 6 (new_events sample_machine' mF') ∧
            replay (new_events sample_machine mF) (m_s sample_machine)
            = Some (m_s mF).
Proof.
  assert (mac_pre 33 sample_machine) as H1 by (unfold mac_pre; cbn; lia).
  assert (mac_pre 0 sample_machine') as H2 by (unfold mac_pre; cbn; lia).
  split; [exact H1 |]. split; [exact H2 |]. split; [reflexivity |].
  destruct (init_state_from_key 33 sample_machine 0 sample_machine'
              H1 H2 eq_refl)
    as (mF & mF' & s1 & Hr & Hr' & Hl & Hl' & _ & _ & _ & _ & _ & _
        & Htie & _).
  exists mF, mF'. split; [exact Hr |]. split; [exact Hr' |].
  split; [exact (eq_trans Hl (eq_sym Hl')) | exact Htie].
Defined.

(** ** C2 *)

Lemma filter_writes_word_4 key msg len :
  List.filter (writes_word 4) (mac_events key msg len)
  = [Assign 4 (Lit 0) 0; XorAssign 4 (Lit 1) 1].
Proof.
  unfold mac_events, absorb_events.
  rewrite !List.filter_app, (filter_blocks msg _ []) by done.
  by rewrite flat_map_const_nil.
Qed.

(** C2: in the log of a call every XOR of a message-derived operand (a
    word of the message or of the padded buffer) goes to one of
    [s[0..3]]; the writes to [s[4]] are the initial [s[4] = 0] and one
    [s[4] ^= 1], which comes right after the four XORs of the final block
    and right before the last permutation; the XORs into the rate words
    leave [s[4]] as it is, and the log accounts for the final state. *)
Theorem capacity_word_isolated len m :
  mac_pre len m →
  ∃ m' pre,
    ascon_mac len m = Some m' ∧
    replay (new_events m m') (m_s m) = Some (m_s m') ∧
    (∀ j o v, In (XorAssign j o v) (new_events m m') →
              message_derived o = true → (j < 4)%nat) ∧
    (∀ j o v, In (Assign j o v) (new_events m m') →
              message_derived o = false) ∧
    List.filter (writes_word 4) (new_events m m')
    = [Assign 4 (Lit 0) 0; XorAssign 4 (Lit 1) 1] ∧
    new_events m m'
    = pre ++ [ XorAssign 0 (Load64 BufMem 0) (word_at (m_buf m') 0);
               XorAssign 1 (Load64 BufMem 8) (word_at (m_buf m') 8);
               XorAssign 2 (Load64 BufMem 16) (word_at (m_buf m') 16);
               XorAssign 3 (Load64 BufMem 24) (word_at (m_buf m') 24);
               XorAssign 4 (Lit 1) 1;
               Permute 12 ] ∧
    (∀ j o v s s', (j < 4)%nat →
                   apply_event (XorAssign j o v) s = Some s' →
                   sget s' 4 = sget s 4) ∧
    (∀ s, apply_event (XorAssign 4 (Lit 1) 1) s
          = Some (sset s 4 (Z.lxor (sget s 4) 1))).
Proof.
  intros Hpre.
  destruct (ascon_mac_log len m Hpre) as (m' & Hrun & Hm' & Hlog & Hre & _).
  exists m',
    (init_events (m_key m)
       ++ flat_map (full_block_events (m_msg m))
            (seq 0 (Z.to_nat (len / 32)))).
  pose proof (Forall_rate_only_mac (m_key m) (m_msg m) len) as Hrate.
  rewrite Forall_forall in Hrate.
  split; [done |]. split; [by rewrite Hlog |].
  split.
  { intros j o v Hin. rewrite Hlog in Hin.
    exact (Hrate _ Hin). }
  split.
  { intros j o v Hin. rewrite Hlog in Hin.
    exact (Hrate _ Hin). }
  split; [rewrite Hlog; apply filter_writes_word_4 |].
  split.
  { rewrite Hlog, Hm'. unfold mac_events, absorb_events, final_machine.
    cbn [m_buf]. by rewrite <- app_assoc. }
  split; [| done].
  intros j o v s s' Hj [= <-]. unfold sxor.
  rewrite sget_sset by lia. rewrite decide_False by lia. done.
Qed.

Lemma capacity_word_isolated_witness :
  mac_pre 33 sample_machine ∧
  ∃ m', ascon_mac 33 sample_machine = Some m' ∧
        List.filter (writes_word 4) (new_events sample_machine m')
        = [Assign 4 (Lit 0) 0; XorAssign 4 (Lit 1) 1].
Proof.
  assert (mac_pre 33 sample_machine) as H1 by (unfold mac_pre; cbn; lia).
  split; [exact H1 |].
  destruct (capacity_word_isolated 33 sample_machine H1)
    as (m' & pre & Hr & _ & _ & _ & Hf & _).
  exists m'. split; [exact Hr | exact Hf].
Defined.

(** ** C3 *)

(** C3: after the [len / 32] complete blocks exactly one final block is
    absorbed; it is the [len mod 32] trailing bytes of the message, then
    one byte 0x80 at offset [len mod 32], then zeros up to 32 bytes; when
    [len] is a multiple of 32 it is 0x80 followed by 31 zero bytes.  The
    state the call ends in is the replay of its log, and it is the
    12-round permutation of the state [s_b] left by the complete blocks
    with the four big-endian words of this block XORed into [s[0..3]]
    and [s[4]] flipped. *)
Theorem final_block_padding len m :
  mac_pre len m →
  let q := Z.to_nat (len / 32) in
  let r := Z.to_nat (len mod 32) in
  let tail := take r (drop (32 * q) (m_msg m)) in
  ∃ m',
    ascon_mac len m = Some m' ∧
    m_buf m' = tail ++ [x80] ++ replicate (31 - r) x00 ∧
    tail = drop (32 * q) (take (Z.to_nat len) (m_msg m)) ∧
    length tail = r ∧ (r <= 31)%nat ∧
    length (m_buf m') = 32%nat ∧
    m_buf m' !! r = Some x80 ∧
    (len mod 32 = 0 → m_buf m' = x80 :: replicate 31 x00) ∧
    new_events m m'
    = init_events (m_key m)
        ++ flat_map (full_block_events (m_msg m)) (seq 0 q)
        ++ block_events BufMem (m_buf m') 0
        ++ [XorAssign 4 (Lit 1) 1; Permute 12] ∧
    List.filter (reads_region BufMem) (new_events m m')
    = block_events BufMem (m_buf m') 0 ∧
    replay (new_events m m') (m_s m) = Some (m_s m') ∧
    ∃ s_b,
      replay (init_events (m_key m)
                ++ flat_map (full_block_events (m_msg m)) (seq 0 q)) (m_s m)
      = Some s_b ∧
      ascon_permutation
        (State (Z.lxor (x0 s_b) (word_at (m_buf m') 0))
               (Z.lxor (x1 s_b) (word_at (m_buf m') 8))
               (Z.lxor (x2 s_b) (word_at (m_buf m') 16))
               (Z.lxor (x3 s_b) (word_at (m_buf m') 24))
               (Z.lxor (x4 s_b) 1)) 12
      = Some (m_s m').
Proof.
  intros Hpre. cbv zeta.
  destruct (ascon_mac_log len m Hpre) as (m' & Hrun & Hm' & Hlog & Hre & _).
  rewrite replay_mac_events_state in Hre.
  assert (m_s m'
          = P12 (absorb_final
                   (blocks_state (m_key m) (m_msg m) (Z.to_nat (len / 32)))
                   (pad_block (m_msg m) len))) as HsF by congruence.
  assert (m_buf m' = pad_block (m_msg m) len) as Hpadbuf
    by (by rewrite Hm').
  destruct Hpre as (_ & [Hlen0 Hlen] & _).
  assert (0 <= len mod 32 < 32) as Hr by (apply Z.mod_pos_bound; lia).
  assert (len = 32 * (len / 32) + len mod 32) as Hqr
    by (apply Z.div_mod; lia).
  assert (0 <= len / 32) as Hq by (apply Z.div_pos; lia).
  set (q := Z.to_nat (len / 32)). set (r := Z.to_nat (len mod 32)).
  assert (m_buf m'
          = take r (drop (32 * q) (m_msg m))
            ++ [x80] ++ replicate (31 - r) x00) as Hbuf.
  { rewrite Hm'. unfold final_machine, pad_block. cbn [m_buf app].
    fold r. do 3 f_equal. unfold q. lia. }
  assert (length (take r (drop (32 * q) (m_msg m))) = r) as Htail
    by (rewrite length_take, length_drop; unfold q, r; lia).
  exists m'. split; [done |]. split; [done |].
  split.
  { rewrite take_drop_commute. do 2 f_equal. unfold q, r. lia. }
  split; [done |]. split; [unfold r; lia |].
  split.
  { rewrite Hbuf, !length_app, Htail, length_replicate. cbn [length].
    unfold r. lia. }
  split.
  { rewrite Hbuf. rewrite lookup_app_r by lia.
    by rewrite Htail, Nat.sub_diag. }
  split.
  { intros H0. rewrite Hbuf. unfold r. rewrite H0. by cbn. }
  split.
  { rewrite Hlog, Hm'. unfold mac_events, absorb_events, final_events.
    unfold final_machine. by cbn [m_buf]. }
  split.
  { rewrite Hlog, Hm'. unfold mac_events, absorb_events, final_machine.
    cbn [m_buf].
    rewrite !List.filter_app, (filter_blocks (m_msg m) _ []) by done.
    by rewrite flat_map_const_nil. }
  split; [rewrite Hlog, replay_mac_events_state; congruence |].
  exists (blocks_state (m_key m) (m_msg m) q).
  split; [apply replay_blocks_state |].
  rewrite ascon_permutation_12, Hpadbuf, HsF. reflexivity.
Qed.

Lemma final_block_padding_witness :
  mac_pre 33 sample_machine ∧
  ∃ m', ascon_mac 33 sample_machine = Some m' ∧
        m_buf m' = [u8 225; x80] ++ replicate 30 x00 ∧
        replay (new_events sample_machine m') (m_s sample_machine)
        = Some (m_s m').
Proof.
  assert (mac_pre 33 sample_machine) as H1 by (unfold mac_pre; cbn; lia).
  split; [exact H1 |].
  destruct (final_block_padding 33 sample_machine H1)
    as (m' & Hr & Hb & _ & _ & _ & _ & _ & _ & _ & _ & Htie & _).
  exists m'. split; [exact Hr |]. split; [exact Hb | exact Htie].
Defined.

(** ** C7 *)

(** C7: the last step of a call on the state is the permutation that ends
    the absorption; the first sixteen bytes of the tag buffer become the
    big-endian bytes of [s[0]] followed by those of [s[1]] of the state
    this permutation returns, whatever the buffer held; bytes of the buffer
    beyond the sixteenth are left alone. *)
Theorem tag_is_squeezed_state len m :
  mac_pre len m →
  ∃ m' pre s_pre,
    ascon_mac len m = Some m' ∧
    new_events m m' = pre ++ [Permute 12] ∧
    replay pre (m_s m) = Some s_pre ∧
    ascon_permutation s_pre 12 = Some (m_s m') ∧
    take 16 (m_tag m')
    = be_bytes (sget (m_s m') 0) ++ be_bytes (sget (m_s m') 1) ∧
    (∀ k : nat, (k < 8)%nat →
       m_tag m' !! k = Some (u8 (sget (m_s m') 0 / 256 ^ Z.of_nat (7 - k))) ∧
       m_tag m' !! (8 + k)%nat
       = Some (u8 (sget (m_s m') 1 / 256 ^ Z.of_nat (7 - k)))) ∧
    load64_be (m_tag m') = Some (sget (m_s m') 0) ∧
    load64_be (drop 8 (m_tag m')) = Some (sget (m_s m') 1) ∧
    drop 16 (m_tag m') = drop 16 (m_tag m) ∧
    length (m_tag m') = length (m_tag m).
Proof.
  intros Hpre.
  destruct (ascon_mac_log len m Hpre)
    as (m' & Hrun & Hm' & Hlog & Hre & Hwf).
  destruct Hpre as (_ & _ & _ & Htag).
  set (sF := m_s m') in *.
  set (b0 := be_bytes (sget sF 0)). set (b1 := be_bytes (sget sF 1)).
  assert (m_tag m' = b0 ++ b1 ++ drop 16 (m_tag m)) as Ht
    by (by rewrite Hm').
  assert (length b0 = 8%nat) as Hb0 by done.
  assert (length b1 = 8%nat) as Hb1 by done.
  set (pre := init_events (m_key m)
                ++ flat_map (full_block_events (m_msg m))
                     (seq 0 (Z.to_nat (len / 32)))
                ++ block_events BufMem (pad_block (m_msg m) len) 0
                ++ [XorAssign 4 (Lit 1) 1]).
  assert (mac_events (m_key m) (m_msg m) len = pre ++ [Permute 12]) as Hev.
  { unfold pre, mac_events, absorb_events, final_events.
    rewrite <- !app_assoc. done. }
  rewrite Hev, replay_app in Hre.
  destruct (replay pre (m_s m)) as [s_pre |] eqn:Hpre; [| done].
  cbn [mbind option_bind replay apply_event] in Hre.
  exists m', pre, s_pre.
  split; [done |]. split; [by rewrite Hlog |]. split; [done |].
  split.
  { destruct (ascon_permutation s_pre 12); [done | done]. }
  split.
  { rewrite Ht, app_assoc.
    by rewrite take_app_length' by (rewrite length_app; lia). }
  split.
  { intros k Hk. rewrite Ht. split.
    - rewrite lookup_app_l by lia. unfold b0, be_bytes.
      rewrite list_lookup_fmap, lookup_seq_lt by lia. done.
    - rewrite lookup_app_r by lia. rewrite lookup_app_l by lia.
      rewrite Hb0. replace (8 + k - 8)%nat with k by lia.
      unfold b1, be_bytes.
      rewrite list_lookup_fmap, lookup_seq_lt by lia. done. }
  split.
  { rewrite Ht, load64_be_take by (rewrite length_app; lia).
    rewrite take_app_length' by done.
    unfold b0. by rewrite be64_be_bytes by by apply is_u64_sget. }
  split.
  { rewrite Ht, drop_app_length' by done.
    rewrite load64_be_take by (rewrite length_app; lia).
    rewrite take_app_length' by done.
    unfold b1. by rewrite be64_be_bytes by by apply is_u64_sget. }
  split.
  { rewrite Ht, app_assoc.
    by rewrite drop_app_length' by (rewrite length_app; lia). }
  rewrite Ht, !length_app, length_drop. lia.
Qed.

Lemma tag_is_squeezed_state_witness :
  mac_pre 33 sample_machine ∧
  ∃ m', ascon_mac 33 sample_machine = Some m' ∧
        take 16 (m_tag m')
        = be_bytes (sget (m_s m') 0) ++ be_bytes (sget (m_s m') 1).
Proof.
  assert (mac_pre 33 sample_machine) as H1 by (unfold mac_pre; cbn; lia).
  split; [exact H1 |].
  destruct (tag_is_squeezed_state 33 sample_machine H1)
    as (m' & pre & s_pre & Hr & _ & _ & _ & Ht & _).
  exists m'. split; [exact Hr | exact Ht].
Defined.

(** ** C8 *)

Lemma replay_prefix_wf key msg len s (n : nat) :
  (5 <= n)%nat →
  ∃ s', replay (take n (mac_events key msg len)) s = Some s' ∧
        wf_state s'.
Proof.
  intros Hn. unfold mac_events, init_events.
  do 5 (destruct n as [| n]; [lia |]).
  cbn [app take replay apply_event mbind option_bind].
  apply replay_ok.
  - apply Forall_take. apply Forall_cons_2; [cbn; lia |].
    apply Forall_event_ok_absorb.
  - destruct s. cbn [sset x0 x1 x2 x3 x4]. unfold wf_state.
    cbn [x0 x1 x2 x3 x4].
    pose proof (word_at_is_u64 key 0). pose proof (word_at_is_u64 key 8).
    assert (is_u64 IV) by (by split).
    assert (is_u64 0) by (by split).
    tauto.
Qed.

Lemma length_filter_blocks msg (f : event → bool) (k : nat) (l : list nat) :
  (∀ i, length (List.filter f (full_block_events msg i)) = k) →
  length (List.filter f (flat_map (full_block_events msg) l))
  = (length l * k)%nat.
Proof.
  intros Hf. induction l as [| i l IH]; [done |].
  cbn [flat_map length]. rewrite List.filter_app, length_app, Hf, IH. lia.
Qed.

(** C8: after the six steps of the initialization the log of a call holds
    [len / 32 + 1 = ceil ((len + 1) / 32)] blocks, each of four XORs of a
    message-derived word into the rate words and one 12-round
    permutation, the last block with the domain-separation flip before
    its permutation; the state is five 64-bit words at the end and after
    every step from the fifth assignment on.  The state the call ends in
    is the replay of this log: starting from the initialized state, each
    of the [len / 32] complete blocks is XORed into [s[0..3]] and the
    12-round permutation applied, then the same is done once more with
    the final block and the flip of [s[4]]. *)
Theorem absorb_block_count len m :
  mac_pre len m →
  let blocks := Z.to_nat (len / 32 + 1) in
  ∃ m',
    ascon_mac len m = Some m' ∧
    len / 32 + 1 = (len + 1 + 31) / 32 ∧
    drop 6 (new_events m m')
    = flat_map (full_block_events (m_msg m)) (seq 0 (blocks - 1))
        ++ block_events BufMem (m_buf m') 0
        ++ [XorAssign 4 (Lit 1) 1; Permute 12] ∧
    length (List.filter is_permute (drop 6 (new_events m m'))) = blocks ∧
    length (List.filter is_absorb_xor (drop 6 (new_events m m')))
    = (4 * blocks)%nat ∧
    List.filter is_absorb_xor (take 6 (new_events m m')) = [] ∧
    length (List.filter is_permute (new_events m m')) = S blocks ∧
    wf_state (m_s m') ∧
    (∀ n : nat, (5 <= n)%nat →
       ∃ s', replay (take n (new_events m m')) (m_s m) = Some s' ∧
             wf_state s') ∧
    replay (new_events m m') (m_s m) = Some (m_s m') ∧
    (∀ s, ascon_permutation s 12 = Some (P12 s)) ∧
    blocks_state (m_key m) (m_msg m) (blocks - 1)
    = fold_left
        (fun st i =>
           P12 (State (Z.lxor (x0 st) (word_at (m_msg m) (32 * i)))
                      (Z.lxor (x1 st) (word_at (m_msg m) (32 * i + 8)))
                      (Z.lxor (x2 st) (word_at (m_msg m) (32 * i + 16)))
                      (Z.lxor (x3 st) (word_at (m_msg m) (32 * i + 24)))
                      (x4 st)))
        (seq 0 (blocks - 1))
        (P12 (State IV (word_at (m_key m) 0) (word_at (m_key m) 8) 0 0)) ∧
    (let s_b := blocks_state (m_key m) (m_msg m) (blocks - 1) in
     m_s m'
     = P12 (State (Z.lxor (x0 s_b) (word_at (m_buf m') 0))
                  (Z.lxor (x1 s_b) (word_at (m_buf m') 8))
                  (Z.lxor (x2 s_b) (word_at (m_buf m') 16))
                  (Z.lxor (x3 s_b) (word_at (m_buf m') 24))
                  (Z.lxor (x4 s_b) 1))).
Proof.
  intros Hpre. cbv zeta.
  destruct (ascon_mac_log len m Hpre)
    as (m' & Hrun & Hm' & Hlog & Hre & Hwf).
  pose proof Hre as HsF. rewrite replay_mac_events_state in HsF.
  apply (inj Some) in HsF.
  destruct Hpre as (_ & [Hlen0 Hlen] & _).
  assert (0 <= len / 32) as Hq by (apply Z.div_pos; lia).
  replace (Z.to_nat (len / 32 + 1) - 1)%nat with (Z.to_nat (len / 32))
    by lia.
  assert (m_buf m' = pad_block (m_msg m) len) as Hbuf by (by rewrite Hm').
  assert (drop 6 (new_events m m')
          = flat_map (full_block_events (m_msg m))
              (seq 0 (Z.to_nat (len / 32)))
            ++ block_events BufMem (m_buf m') 0
            ++ [XorAssign 4 (Lit 1) 1; Permute 12]) as Hdrop.
  { by rewrite Hlog, Hbuf. }
  assert (length (List.filter is_permute (drop 6 (new_events m m')))
          = Z.to_nat (len / 32 + 1)) as Hperm.
  { rewrite Hdrop, !List.filter_app, !length_app.
    rewrite (length_filter_blocks _ _ 1), length_seq by done. cbn. lia. }
  exists m'. split; [done |].
  split.
  { replace (len + 1 + 31) with (len + 1 * 32) by lia.
    by rewrite Z.div_add by lia. }
  split; [done |]. split; [done |].
  split.
  { rewrite Hdrop, !List.filter_app, !length_app.
    rewrite (length_filter_blocks _ _ 4), length_seq by done. cbn. lia. }
  split; [by rewrite Hlog |].
  split.
  { rewrite <- (take_drop 6 (new_events m m')) at 1.
    rewrite List.filter_app, length_app, Hperm. by rewrite Hlog. }
  split; [done |].
  split; [intros n Hn; rewrite Hlog; by apply replay_prefix_wf |].
  split; [by rewrite Hlog |].
  split; [apply ascon_permutation_12 |].
  split; [reflexivity |].
  rewrite Hbuf, <- HsF. reflexivity.
Qed.

Lemma absorb_block_count_witness :
  mac_pre 33 sample_machine ∧
  ∃ m', ascon_mac 33 sample_machine = Some m' ∧
        length (List.filter is_permute
                  (drop 6 (new_events sample_machine m')))
        = Z.to_nat (33 / 32 + 1) ∧
        replay (new_events sample_machine m') (m_s sample_machine)
        = Some (m_s m').
Proof.
  assert (mac_pre 33 sample_machine) as H1 by (unfold mac_pre; cbn; lia).
  split; [exact H1 |].
  destruct (absorb_block_count 33 sample_machine H1)
    as (m' & Hr & _ & _ & Hp & _ & _ & _ & _ & _ & Htie & _).
  exists m'. split; [exact Hr |]. split; [exact Hp | exact Htie].
Defined.

(** ** C9 *)

Lemma replay_mac_events_any key msg len s s' :
  replay (mac_events key msg len) s = replay (mac_events key msg len) s'.
Proof.
  unfold mac_events. by rewrite !replay_app, !replay_init_events.
Qed.

(** C9: two calls with the same key, message and length write the same
    sixteen tag bytes, whatever the locals, the tag buffer and the log
    held before, and each call leaves the key and the message as they
    were; nothing but the first sixteen bytes of the tag buffer changes
    in the caller's memory. *)
Theorem ascon_mac_deterministic len m1 m2 :
  mac_pre len m1 → mac_pre len m2 →
  m_key m1 = m_key m2 → m_msg m1 = m_msg m2 →
  ∃ m1' m2',
    ascon_mac len m1 = Some m1' ∧ ascon_mac len m2 = Some m2' ∧
    take 16 (m_tag m1') = take 16 (m_tag m2') ∧
    m_s m1' = m_s m2' ∧
    m_key m1' = m_key m1 ∧ m_msg m1' = m_msg m1 ∧
    m_key m2' = m_key m2 ∧ m_msg m2' = m_msg m2 ∧
    drop 16 (m_tag m1') = drop 16 (m_tag m1) ∧
    drop 16 (m_tag m2') = drop 16 (m_tag m2).
Proof.
  intros Hpre1 Hpre2 Hkey Hmsg.
  destruct (ascon_mac_log len m1 Hpre1) as (m1' & Hrun1 & Hm1 & _ & Hre1 & _).
  destruct (ascon_mac_log len m2 Hpre2) as (m2' & Hrun2 & Hm2 & _ & Hre2 & _).
  assert (m_s m1' = m_s m2') as Hs.
  { rewrite Hkey, Hmsg, (replay_mac_events_any _ _ _ _ (m_s m2)), Hre2
      in Hre1. by injection Hre1. }
  assert (∀ m m', m' = final_machine len m (m_s m') →
            take 16 (m_tag m')
            = be_bytes (sget (m_s m') 0) ++ be_bytes (sget (m_s m') 1) ∧
            drop 16 (m_tag m') = drop 16 (m_tag m) ∧
            m_key m' = m_key m ∧ m_msg m' = m_msg m) as Hfin.
  { intros m m' Hm.
    assert (m_tag m'
            = (be_bytes (sget (m_s m') 0) ++ be_bytes (sget (m_s m') 1))
              ++ drop 16 (m_tag m)) as ->
      by (rewrite Hm at 1; cbn [final_machine m_tag]; by rewrite app_assoc).
    rewrite take_app_length', drop_app_length' by done.
    split; [done |]. split; [done |]. by rewrite Hm. }
  destruct (Hfin m1 m1' Hm1) as (Ht1 & Hd1 & Hk1 & Hg1).
  destruct (Hfin m2 m2' Hm2) as (Ht2 & Hd2 & Hk2 & Hg2).
  exists m1', m2'. rewrite Ht1, Ht2, Hs. done.
Qed.

Lemma ascon_mac_deterministic_witness :
  mac_pre 33 sample_machine ∧ mac_pre 33 sample_machine' ∧
  m_key sample_machine = m_key sample_machine' ∧
  m_msg sample_machine = m_msg sample_machine' ∧
  ∃ m1' m2',
    ascon_mac 33 sample_machine = Some m1' ∧
    ascon_mac 33 sample_machine' = Some m2' ∧
    take 16 (m_tag m1') = take 16 (m_tag m2').
Proof.
  assert (mac_pre 33 sample_machine) as H1 by (unfold mac_pre; cbn; lia).
  assert (mac_pre 33 sample_machine') as H2 by (unfold mac_pre; cbn; lia).
  split; [exact H1 |]. split; [exact H2 |].
  split; [reflexivity |]. split; [reflexivity |].
  destruct (ascon_mac_deterministic 33 sample_machine sample_machine'
              H1 H2 eq_refl eq_refl)
    as (m1' & m2' & Hr1 & Hr2 & Ht & _).
  exists m1', m2'. split; [exact Hr1 |]. split; [exact Hr2 | exact Ht].
Defined.

(** * Further properties of the helpers and of the permutation *)

(** ** Rotation *)

(** Rotating right by [n] and then by [64 - n] gives the word back: the
    rotation loses no bit. *)
Theorem ror64_inverse (x n : Z) :
  is_u64 x → 0 < n < 64 → ror64 (ror64 x n) (64 - n) = x.
Proof.
  intros Hx Hn.
  assert (is_u64 (ror64 x n)) as Hr by (apply is_u64_ror64; [done | lia]).
  apply Z.bits_inj'. intros i Hi.
  destruct (Z.lt_ge_cases i 64) as [Hlt | Hge].
  - rewrite ror64_testbit by (done || lia).
    rewrite ror64_testbit
      by (done || lia || (apply Z.mod_pos_bound; lia)).
    f_equal. rewrite Z.add_mod_idemp_l by lia.
    replace (i + (64 - n) + n) with (i + 1 * 64) by lia.
    rewrite Z.mod_add by lia. apply Z.mod_small. lia.
  - rewrite (is_u64_high_bits x Hx i Hge).
    apply is_u64_high_bits; [| done]. apply is_u64_ror64; [done | lia].
Qed.

Lemma ror64_inverse_witness :
  is_u64 0x0123456789abcdef ∧ 0 < 19 < 64 ∧
  ror64 (ror64 0x0123456789abcdef 19) (64 - 19) = 0x0123456789abcdef.
Proof.
  assert (is_u64 0x0123456789abcdef) as Hx by (unfold is_u64; lia).
  split; [exact Hx |]. split; [lia |].
  apply (ror64_inverse 0x0123456789abcdef 19 Hx). lia.
Defined.

(** The rotation of an XOR is the XOR of the rotations. *)
Lemma ror64_lxor x y n :
  is_u64 x → is_u64 y → 0 < n < 64 →
  ror64 (Z.lxor x y) n = Z.lxor (ror64 x n) (ror64 y n).
Proof.
  intros Hx Hy Hn.
  assert (is_u64 (Z.lxor x y)) as Hxy by by apply is_u64_lxor.
  apply Z.bits_inj'. intros i Hi. rewrite Z.lxor_spec.
  destruct (Z.lt_ge_cases i 64) as [Hlt | Hge].
  - rewrite !ror64_testbit by (done || lia). apply Z.lxor_spec.
  - rewrite !(is_u64_high_bits (ror64 _ n)); try done;
      apply is_u64_ror64; (done || lia).
Qed.

(** ** The big-endian helpers *)

(** [load64_be] succeeds exactly on the pointers with eight bytes left; the
    word it returns is a [u64], it is the big-endian value of these eight
    bytes and determines them. *)
Theorem load64_be_defined (p : list byte) :
  (is_Some (load64_be p) ↔ (8 <= length p)%nat) ∧
  (∀ v, load64_be p = Some v →
        is_u64 v ∧ v = be64 (take 8 p) ∧ be_bytes v = take 8 p ∧
        ∀ p', take 8 p' = take 8 p → load64_be p' = Some v).
Proof.
  split.
  - split.
    + intros [v Hv]. destruct (Nat.le_gt_cases 8 (length p)); [done |].
      by rewrite load64_be_short in Hv.
    + intros Hp. rewrite load64_be_take by done. by eexists.
  - intros v Hv.
    assert (8 <= length p)%nat as Hp.
    { destruct (Nat.le_gt_cases 8 (length p)); [done |].
      by rewrite load64_be_short in Hv. }
    rewrite load64_be_take in Hv by done. injection Hv as <-.
    assert (length (take 8 p) = 8%nat) as Hl by (rewrite length_take; lia).
    split.
    { pose proof (word_at_is_u64 p 0) as H. by unfold word_at in H. }
    split; [done |]. split; [by apply be_bytes_be64 |].
    intros p' Hp'.
    assert (8 <= length p')%nat as Hlp'.
    { apply (f_equal length) in Hp'. rewrite !length_take in Hp'. lia. }
    by rewrite load64_be_take, Hp' by done.
Qed.

Lemma poke_Some p i b p' :
  poke p i b = Some p' → (i < length p)%nat ∧ p' = <[i := b]> p.
Proof. unfold poke. case_decide; [by intros [= <-] | done]. Qed.

Lemma store64_be_Some p off x p' :
  store64_be p off x = Some p' → (off + 8 <= length p)%nat.
Proof.
  unfold store64_be. intros H.
  repeat match type of H with
  | (?mx ≫= _) = Some _ =>
      let q := fresh "q" in
      let Hq := fresh "Hq" in
      destruct mx as [q |] eqn:Hq; [| done];
      cbn [mbind option_bind] in H;
      apply poke_Some in Hq as [_ ->]
  end.
  apply poke_Some in H as [H _]. rewrite !length_insert in H. lia.
Qed.

(** [store64_be] succeeds exactly when eight bytes are left at [off]; it
    keeps the length of the buffer, writes the big-endian bytes of the
    word at [off .. off + 7] and leaves every other byte alone. *)
Theorem store64_be_frame (p : list byte) (off : nat) (x : Z) :
  (is_Some (store64_be p off x) ↔ (off + 8 <= length p)%nat) ∧
  (∀ p', store64_be p off x = Some p' →
         length p' = length p ∧
         take 8 (drop off p') = be_bytes x ∧
         ∀ i : nat, (i < off ∨ off + 8 <= i)%nat → p' !! i = p !! i).
Proof.
  split.
  - split.
    + intros [p' Hp']. by apply store64_be_Some in Hp'.
    + intros Hp. rewrite store64_be_spec by done. by eexists.
  - intros p' Hp'. pose proof (store64_be_Some _ _ _ _ Hp') as Hp.
    rewrite store64_be_spec in Hp' by done. apply (inj Some) in Hp'.
    subst p'.
    assert (length (take off p) = off) as Hl by (rewrite length_take; lia).
    split.
    { rewrite !length_app, Hl, length_be_bytes, length_drop. lia. }
    split.
    { rewrite drop_app_length' by done.
      by rewrite take_app_length' by done. }
    intros i [Hi | Hi].
    + rewrite lookup_app_l by lia. by rewrite lookup_take_lt by lia.
    + rewrite lookup_app_r by lia. rewrite lookup_app_r
        by (rewrite length_be_bytes; lia).
      rewrite lookup_drop, Hl, length_be_bytes. f_equal. lia.
Qed.

(** Loading what was stored gives the word back, and storing what was
    loaded leaves the buffer as it was. *)
Theorem load64_be_store64_be (p : list byte) (off : nat) (x : Z) :
  is_u64 x → (off + 8 <= length p)%nat →
  (∃ p', store64_be p off x = Some p' ∧
         load64_be (drop off p') = Some x) ∧
  (∀ v, load64_be (drop off p) = Some v → store64_be p off v = Some p).
Proof.
  intros Hx Hp.
  assert (length (take off p) = off) as Hl by (rewrite length_take; lia).
  split.
  - eexists. split; [by apply store64_be_spec |].
    rewrite drop_app_length' by done.
    rewrite load64_be_take by (rewrite length_app, length_be_bytes; lia).
    rewrite take_app_length' by done. by rewrite be64_be_bytes.
  - intros v Hv.
    rewrite load64_be_take in Hv by (rewrite length_drop; lia).
    injection Hv as <-. rewrite store64_be_spec by done.
    rewrite be_bytes_be64 by (rewrite length_take, length_drop; lia).
    rewrite <- (drop_drop p 8 off), take_drop. by rewrite take_drop.
Qed.

Lemma load64_be_store64_be_witness :
  is_u64 0x0123456789abcdef ∧ (3 + 8 <= length (replicate 16 xff))%nat ∧
  ∃ p', store64_be (replicate 16 xff) 3 0x0123456789abcdef = Some p' ∧
        load64_be (drop 3 p') = Some 0x0123456789abcdef.
Proof.
  assert (is_u64 0x0123456789abcdef) as Hx by (unfold is_u64; lia).
  assert (3 + 8 <= length (replicate 16 xff))%nat as Hp by (cbn; lia).
  split; [exact Hx |]. split; [exact Hp |].
  exact (proj1 (load64_be_store64_be (replicate 16 xff) 3
                  0x0123456789abcdef Hx Hp)).
Defined.

(** ** The permutation outside and inside its table *)

(** With [0 <= rounds <= 12] the permutation returns, and what it returns
    is again five words below 2^64. *)
Theorem ascon_permutation_keeps_words (s : state) (rounds : Z) :
  0 <= rounds <= 12 → wf_state s →
  ∃ s', ascon_permutation s rounds = Some s' ∧ wf_state s'.
Proof.
  intros Hr Hs. rewrite ascon_permutation_last_constants by done.
  eexists. split; [done |].
  apply wf_state_fold_rounds; [| done].
  apply Forall_drop, Forall_is_u64_RC.
Qed.

Lemma ascon_permutation_keeps_words_witness :
  0 <= 12 <= 12 ∧ wf_state (State 1 2 3 4 5) ∧
  ∃ s', ascon_permutation (State 1 2 3 4 5) 12 = Some s' ∧ wf_state s'.
Proof.
  assert (wf_state (State 1 2 3 4 5)) as Hwf.
  { unfold wf_state, is_u64. cbn. lia. }
  split; [lia |]. split; [exact Hwf |].
  apply (ascon_permutation_keeps_words (State 1 2 3 4 5) 12); [lia |].
  exact Hwf.
Defined.

(** With more than twelve rounds the first iteration reads the table of
    round constants at a negative index: the call is out of bounds. *)
Theorem ascon_permutation_too_many_rounds (s : state) (rounds : Z) :
  12 < rounds → ascon_permutation s rounds = None.
Proof.
  intros Hr. unfold ascon_permutation. cbv zeta.
  destruct (Z.to_nat (12 - (12 - rounds))) as [| fuel] eqn:Hfuel; [lia |].
  cbn [perm_loop]. destruct (Z.ltb_spec (12 - rounds) 12); [| lia].
  unfold round, RC_at.
  destruct (Z.leb_spec 0 (12 - rounds)); [lia | done].
Qed.

Lemma ascon_permutation_too_many_rounds_witness :
  12 < 13 ∧ ascon_permutation (State 1 2 3 4 5) 13 = None.
Proof.
  split; [lia |].
  apply (ascon_permutation_too_many_rounds (State 1 2 3 4 5) 13). lia.
Defined.

Lemma rounds_over_seqZ_take (n k : nat) s :
  (k + n <= 12)%nat →
  rounds_over (seqZ (Z.of_nat k) (Z.of_nat n)) s
  = Some (fold_left round_with (take n (drop k RC)) s).
Proof.
  revert k s. induction n as [| n IH]; intros k s Hk; [done |].
  rewrite Nat2Z.inj_succ, seqZ_cons by lia. cbn [rounds_over].
  unfold round. rewrite RC_at_lookup by lia.
  destruct (lookup_lt_is_Some_2 RC k) as [c Hc]; [cbn; lia |].
  rewrite Hc. cbn [mbind option_bind].
  replace (Z.succ (Z.of_nat k)) with (Z.of_nat (S k)) by lia.
  rewrite Z.pred_succ, IH by lia.
  by rewrite (drop_S RC c k Hc).
Qed.

(** The permutation with [a + b] rounds is the [a] rounds at the indices
    [12 - (a + b) ..] followed by the permutation with [b] rounds: the
    reduced-round variants are the tails of the full one. *)
Theorem ascon_permutation_split (s : state) (a b : Z) :
  0 <= a → 0 <= b → a + b <= 12 →
  ascon_permutation s (a + b)
  = s' ← rounds_over (seqZ (12 - (a + b)) a) s; ascon_permutation s' b.
Proof.
  intros Ha Hb Hab.
  rewrite ascon_permutation_last_constants by lia.
  pose proof (rounds_over_seqZ_take (Z.to_nat a)
                (Z.to_nat (12 - (a + b))) s) as H.
  rewrite !Z2Nat.id in H by lia. rewrite H by lia.
  cbn [mbind option_bind].
  rewrite ascon_permutation_last_constants by lia.
  f_equal. rewrite <- fold_left_app. f_equal.
  unfold last_constants.
  rewrite <- (take_drop (Z.to_nat a) (drop (Z.to_nat (12 - (a + b))) RC))
    at 1.
  f_equal. rewrite drop_drop. f_equal. lia.
Qed.

Lemma ascon_permutation_split_witness :
  0 <= 4 ∧ 0 <= 8 ∧ 4 + 8 <= 12 ∧
  ascon_permutation (State 1 2 3 4 5) (4 + 8)
  = s' ← rounds_over (seqZ (12 - (4 + 8)) 4) (State 1 2 3 4 5);
    ascon_permutation s' 8.
Proof.
  split; [lia |]. split; [lia |]. split; [lia |].
  apply (ascon_permutation_split (State 1 2 3 4 5) 4 8); lia.
Defined.

(** ** Linearity of the diffusion layer *)

Lemma lxor_interchange a b c d e f :
  Z.lxor (Z.lxor a b) (Z.lxor (Z.lxor c d) (Z.lxor e f))
  = Z.lxor (Z.lxor a (Z.lxor c e)) (Z.lxor b (Z.lxor d f)).
Proof.
  apply Z.bits_inj'. intros i _. rewrite !Z.lxor_spec.
  by destruct (Z.testbit a i), (Z.testbit b i), (Z.testbit c i),
    (Z.testbit d i), (Z.testbit e i), (Z.testbit f i).
Qed.

(** The diffusion layer is linear over XOR: the layer of the word-wise
    XOR of two states is the XOR of their layers. *)
Theorem pL_linear (s t : state) :
  wf_state s → wf_state t →
  pL (state_xor s t) = state_xor (pL s) (pL t).
Proof.
  intros (Hs0 & Hs1 & Hs2 & Hs3 & Hs4) (Ht0 & Ht1 & Ht2 & Ht3 & Ht4).
  rewrite !sget_pL. unfold state_xor. cbn [x0 x1 x2 x3 x4].
  rewrite !ror64_lxor by (done || lia).
  f_equal; apply lxor_interchange.
Qed.

Lemma pL_linear_witness :
  wf_state (State 1 2 3 4 5) ∧ wf_state (State 6 7 8 9 10) ∧
  pL (state_xor (State 1 2 3 4 5) (State 6 7 8 9 10))
  = state_xor (pL (State 1 2 3 4 5)) (pL (State 6 7 8 9 10)).
Proof.
  assert (wf_state (State 1 2 3 4 5)) as H1.
  { unfold wf_state, is_u64. cbn. lia. }
  assert (wf_state (State 6 7 8 9 10)) as H2.
  { unfold wf_state, is_u64. cbn. lia. }
  split; [exact H1 |]. split; [exact H2 |].
  apply (pL_linear (State 1 2 3 4 5) (State 6 7 8 9 10) H1 H2).
Defined.

(** ** The substitution layer, lane by lane *)

Lemma not64_testbit x i :
  0 <= i < 64 → Z.testbit (not64 x) i = negb (Z.testbit x i).
Proof.
  intros Hi. unfold not64. rewrite wrap64_testbit, Z.lnot_spec by lia.
  destruct (Z.ltb_spec i 64); [done | lia].
Qed.

Lemma pS_lane s i :
  0 <= i < 64 →
  lane (pS s) i
  = sbox_lane (Z.testbit (x0 s) i) (Z.testbit (x1 s) i)
      (Z.testbit (x2 s) i) (Z.testbit (x3 s) i) (Z.testbit (x4 s) i).
Proof.
  intros Hi. destruct s as [a0 a1 a2 a3 a4].
  unfold pS, sxor, lane, sbox_lane.
  cbn [sset sget x0 x1 x2 x3 x4].
  rewrite ?Z.lxor_spec, ?Z.land_spec, ?not64_testbit by done.
  rewrite ?Z.lxor_spec, ?Z.land_spec, ?not64_testbit by done.
  rewrite ?Z.lxor_spec, ?Z.land_spec, ?not64_testbit by done.
  rewrite ?Z.lxor_spec, ?Z.land_spec, ?not64_testbit by done.
  by destruct (Z.testbit a0 i), (Z.testbit a1 i), (Z.testbit a2 i),
    (Z.testbit a3 i), (Z.testbit a4 i).
Qed.

Lemma sbox_lane_table b0 b1 b2 b3 b4 :
  sbox_table !! lane_value (b0, b1, b2, b3, b4)
  = Some (lane_value (sbox_lane b0 b1 b2 b3 b4)).
Proof. by destruct b0, b1, b2, b3, b4. Qed.

Lemma sbox_lane_inj a0 a1 a2 a3 a4 b0 b1 b2 b3 b4 :
  sbox_lane a0 a1 a2 a3 a4 = sbox_lane b0 b1 b2 b3 b4 →
  (a0, a1, a2, a3, a4) = (b0, b1, b2, b3, b4).
Proof.
  destruct a0, a1, a2, a3, a4, b0, b1, b2, b3, b4; vm_compute;
    intros H; (reflexivity || discriminate H).
Qed.

(** The substitution layer is bit-sliced: for each of the 64 bit
    positions, the five output bits at that position are the 5-bit S-box
    of the five input bits at that position, whatever the other bits
    are. *)
Theorem pS_is_sbox_on_lanes (s : state) (i : Z) :
  0 <= i < 64 →
  sbox_table !! lane_value (lane s i) = Some (lane_value (lane (pS s) i)) ∧
  (∀ t, lane t i = lane s i → lane (pS t) i = lane (pS s) i).
Proof.
  intros Hi. split.
  - rewrite pS_lane by done. apply sbox_lane_table.
  - intros t [= H0 H1 H2 H3 H4]. rewrite !pS_lane by done.
    by rewrite H0, H1, H2, H3, H4.
Qed.

Lemma pS_is_sbox_on_lanes_witness :
  0 <= 0 < 64 ∧
  sbox_table !! lane_value (lane (State 1 0 3 0 0) 0)
  = Some (lane_value (lane (pS (State 1 0 3 0 0)) 0)).
Proof.
  split; [lia |].
  apply (pS_is_sbox_on_lanes (State 1 0 3 0 0) 0). lia.
Defined.

Lemma word_eq_of_lanes x y :
  is_u64 x → is_u64 y →
  (∀ i, 0 <= i < 64 → Z.testbit x i = Z.testbit y i) → x = y.
Proof.
  intros Hx Hy H. apply Z.bits_inj'. intros i Hi.
  destruct (Z.lt_ge_cases i 64); [apply H; lia |].
  by rewrite (is_u64_high_bits x), (is_u64_high_bits y).
Qed.

(** The substitution layer maps different states of 64-bit words to
    different states. *)
Lemma pS_injective (s t : state) :
  wf_state s → wf_state t → pS s = pS t → s = t.
Proof.
  intros (Hs0 & Hs1 & Hs2 & Hs3 & Hs4) (Ht0 & Ht1 & Ht2 & Ht3 & Ht4) Heq.
  assert (∀ i, 0 <= i < 64 → lane s i = lane t i) as Hl.
  { intros i Hi. pose proof (pS_lane s i Hi) as Ha.
    pose proof (pS_lane t i Hi) as Hb. rewrite Heq, Hb in Ha.
    unfold lane. symmetry. by apply sbox_lane_inj. }
  destruct s as [a0 a1 a2 a3 a4], t as [b0 b1 b2 b3 b4].
  cbn [x0 x1 x2 x3 x4] in *.
  f_equal; apply word_eq_of_lanes; try done; intros i Hi;
    specialize (Hl i Hi); unfold lane in Hl; cbn [x0 x1 x2 x3 x4] in Hl;
    congruence.
Qed.

(** ** The diffusion layer is invertible *)

Section Rotations.

Implicit Types a b n x y i : Z.

Lemma rotate_right_0 x : rotate_right x 0 = x.
Proof.
  unfold rotate_right. rewrite Z.pow_0_r, Z.div_1_r, Z.mod_1_r. lia.
Qed.

Lemma is_u64_rot n x : is_u64 x → is_u64 (rot n x).
Proof.
  intros Hx. unfold rot.
  assert (0 <= n mod 64 < 64) as Hk by (apply Z.mod_pos_bound; lia).
  destruct (decide (n mod 64 = 0)) as [-> | Hne].
  - by rewrite rotate_right_0.
  - rewrite <- ror64_rotate_right by (done || lia).
    apply is_u64_ror64; [done | lia].
Qed.

Lemma rot_testbit n x i :
  is_u64 x → 0 <= i < 64 →
  Z.testbit (rot n x) i = Z.testbit x ((i + n) mod 64).
Proof.
  intros Hx Hi. unfold rot.
  assert (0 <= n mod 64 < 64) as Hk by (apply Z.mod_pos_bound; lia).
  rewrite <- (Z.add_mod_idemp_r i n 64) by lia.
  destruct (decide (n mod 64 = 0)) as [-> | Hne].
  - rewrite rotate_right_0, Z.add_0_r, Z.mod_small by lia. done.
  - rewrite rotate_right_testbit by (done || lia).
    destruct (Z.ltb_spec i 64); [done | lia].
Qed.

Lemma is_u64_lin a b x : is_u64 x → is_u64 (lin a b x).
Proof.
  intros Hx. unfold lin.
  apply is_u64_lxor; [done |]. by apply is_u64_lxor; apply is_u64_rot.
Qed.

Lemma lin_testbit a b x i :
  is_u64 x → 0 <= i < 64 →
  Z.testbit (lin a b x) i
  = xorb (Z.testbit x i)
      (xorb (Z.testbit x ((i + a) mod 64)) (Z.testbit x ((i + b) mod 64))).
Proof.
  intros Hx Hi. unfold lin. by rewrite !Z.lxor_spec, !rot_testbit.
Qed.

(** Applying a line twice doubles its rotation amounts. *)
Lemma lin_double a b x :
  is_u64 x → lin a b (lin a b x) = lin (2 * a) (2 * b) x.
Proof.
  intros Hx.
  apply word_eq_of_lanes; [by do 2 apply is_u64_lin | by apply is_u64_lin |].
  intros i Hi.
  assert (∀ k, 0 <= (i + k) mod 64 < 64) as Hm
    by (intros k; apply Z.mod_pos_bound; lia).
  rewrite (lin_testbit a b (lin a b x)) by (done || by apply is_u64_lin).
  rewrite !(lin_testbit a b x) by done.
  rewrite (lin_testbit (2 * a) (2 * b) x) by done.
  rewrite !Z.add_mod_idemp_l by lia.
  replace (i + a + a) with (i + 2 * a) by lia.
  replace (i + b + b) with (i + 2 * b) by lia.
  replace (i + b + a) with (i + a + b) by lia.
  by destruct (Z.testbit x i), (Z.testbit x ((i + a) mod 64)),
    (Z.testbit x ((i + b) mod 64)), (Z.testbit x ((i + 2 * a) mod 64)),
    (Z.testbit x ((i + a + b) mod 64)), (Z.testbit x ((i + 2 * b) mod 64)).
Qed.

Lemma is_u64_iter_lin a b (n : nat) x :
  is_u64 x → is_u64 (Nat.iter n (lin a b) x).
Proof.
  intros Hx. induction n as [| n IH]; [done |].
  cbn [Nat.iter nat_rect]. by apply is_u64_lin.
Qed.

Lemma lin_iter_pow2 a b (k : nat) x :
  is_u64 x →
  Nat.iter (2 ^ k) (lin a b) x
  = lin (2 ^ Z.of_nat k * a) (2 ^ Z.of_nat k * b) x.
Proof.
  revert x. induction k as [| k IH]; intros x Hx.
  - cbn [Nat.pow Nat.iter nat_rect Z.of_nat]. by rewrite Z.pow_0_r, !Z.mul_1_l.
  - rewrite Nat.pow_succ_r'.
    replace (2 * 2 ^ k)%nat with (2 ^ k + 2 ^ k)%nat by lia.
    rewrite Nat.iter_add, (IH x Hx), IH by by apply is_u64_lin.
    rewrite lin_double by done.
    rewrite Nat2Z.inj_succ, Z.pow_succ_r by lia. f_equal; lia.
Qed.

Lemma lin_multiple_of_64 a b x :
  is_u64 x → lin (64 * a) (64 * b) x = x.
Proof.
  intros Hx. unfold lin, rot.
  rewrite !(Z.mul_comm 64), !Z.mod_mul, rotate_right_0 by lia.
  by rewrite Z.lxor_nilpotent, Z.lxor_0_r.
Qed.

(** Sixty-four applications of a line give the word back. *)
Lemma lin_iter_64 a b x : is_u64 x → Nat.iter 64 (lin a b) x = x.
Proof.
  intros Hx. change 64%nat with (2 ^ 6)%nat.
  rewrite lin_iter_pow2 by done.
  change (2 ^ Z.of_nat 6) with 64. by apply lin_multiple_of_64.
Qed.

Lemma lin_inj a b x y :
  is_u64 x → is_u64 y → lin a b x = lin a b y → x = y.
Proof.
  intros Hx Hy Heq.
  rewrite <- (lin_iter_64 a b x Hx), <- (lin_iter_64 a b y Hy).
  change 64%nat with (S 63). by rewrite !Nat.iter_succ_r, Heq.
Qed.

(** On words and with the amounts of the source, a line of the diffusion
    layer is [lin]. *)
Lemma sigma_lin a b x :
  is_u64 x → 0 < a < 64 → 0 < b < 64 →
  Z.lxor x (Z.lxor (ror64 x a) (ror64 x b)) = lin a b x.
Proof.
  intros Hx Ha Hb. unfold lin, rot.
  by rewrite !Z.mod_small, !ror64_rotate_right by (done || lia).
Qed.

End Rotations.

(** The diffusion layer is injective on states of five 64-bit words. *)
Lemma pL_injective (s t : state) :
  wf_state s → wf_state t → pL s = pL t → s = t.
Proof.
  intros (Hs0 & Hs1 & Hs2 & Hs3 & Hs4) (Ht0 & Ht1 & Ht2 & Ht3 & Ht4) Heq.
  rewrite !sget_pL in Heq.
  pose proof (f_equal x0 Heq) as H0. pose proof (f_equal x1 Heq) as H1.
  pose proof (f_equal x2 Heq) as H2. pose proof (f_equal x3 Heq) as H3.
  pose proof (f_equal x4 Heq) as H4. clear Heq.
  cbn [x0 x1 x2 x3 x4] in H0, H1, H2, H3, H4.
  rewrite !sigma_lin in H0, H1, H2, H3, H4 by (done || lia).
  destruct s, t. cbn [x0 x1 x2 x3 x4] in *.
  f_equal; eapply lin_inj; eassumption.
Qed.

Lemma iter_pL_words (n : nat) s :
  wf_state s →
  Nat.iter n pL s
  = State (Nat.iter n (lin 19 28) (x0 s)) (Nat.iter n (lin 61 39) (x1 s))
          (Nat.iter n (lin 1 6) (x2 s)) (Nat.iter n (lin 10 17) (x3 s))
          (Nat.iter n (lin 7 41) (x4 s)).
Proof.
  intros (H0 & H1 & H2 & H3 & H4).
  induction n as [| n IH]; [by destruct s |].
  cbn [Nat.iter nat_rect]. fold (Nat.iter n pL s). rewrite IH.
  rewrite sget_pL. cbn [x0 x1 x2 x3 x4].
  rewrite !sigma_lin by (by apply is_u64_iter_lin || lia). done.
Qed.

(** Applying the diffusion layer sixty-four times to a state of 64-bit
    words gives the state back. *)
Theorem pL_order_64 (s : state) : wf_state s → Nat.iter 64 pL s = s.
Proof.
  intros Hs. rewrite iter_pL_words by done.
  destruct Hs as (H0 & H1 & H2 & H3 & H4).
  rewrite !lin_iter_64 by done. by destruct s.
Qed.

Lemma pL_order_64_witness :
  wf_state (State 1 2 3 4 5) ∧
  Nat.iter 64 pL (State 1 2 3 4 5) = State 1 2 3 4 5.
Proof.
  assert (wf_state (State 1 2 3 4 5)) as H1.
  { unfold wf_state, is_u64. cbn. lia. }
  split; [exact H1 |]. apply (pL_order_64 (State 1 2 3 4 5) H1).
Defined.

(** ** The permutation has no collision *)

Lemma lxor_cancel_r a b c : Z.lxor a c = Z.lxor b c → a = b.
Proof.
  intros H.
  assert (∀ z, Z.lxor (Z.lxor z c) c = z) as Hz
    by (intros z; by rewrite Z.lxor_assoc, Z.lxor_nilpotent, Z.lxor_0_r).
  by rewrite <- (Hz a), H, Hz.
Qed.

Lemma pC_injective c s t : pC c s = pC c t → s = t.
Proof.
  destruct s, t. unfold pC, sxor. cbn [sset sget x0 x1 x2 x3 x4].
  intros H. pose proof (f_equal x2 H) as H2. cbn [x2] in H2.
  apply lxor_cancel_r in H2.
  pose proof (f_equal x0 H). pose proof (f_equal x1 H).
  pose proof (f_equal x3 H). pose proof (f_equal x4 H).
  cbn [x0 x1 x3 x4] in *. congruence.
Qed.

Lemma round_with_injective c s t :
  is_u64 c → wf_state s → wf_state t →
  round_with s c = round_with t c → s = t.
Proof.
  intros Hc Hs Ht H. unfold round_with in H.
  apply pL_injective in H.
  - apply pS_injective in H;
      [by apply pC_injective in H | by apply wf_state_pC ..].
  - by apply wf_state_pS, wf_state_pC.
  - by apply wf_state_pS, wf_state_pC.
Qed.

Lemma fold_rounds_injective cs s t :
  Forall is_u64 cs → wf_state s → wf_state t →
  fold_left round_with cs s = fold_left round_with cs t → s = t.
Proof.
  intros Hcs. revert s t.
  induction Hcs as [| c cs Hc _ IH]; intros s t Hs Ht H; [done |].
  cbn [fold_left] in H.
  apply IH in H; [| by apply wf_state_round_with ..].
  by apply round_with_injective in H.
Qed.

(** For [0 <= rounds <= 12] the permutation maps different states of
    64-bit words to different states. *)
Theorem ascon_permutation_injective (s t : state) (rounds : Z) :
  0 <= rounds <= 12 → wf_state s → wf_state t →
  ascon_permutation s rounds = ascon_permutation t rounds → s = t.
Proof.
  intros Hr Hs Ht H.
  rewrite !ascon_permutation_last_constants in H by done.
  apply (inj Some) in H.
  apply fold_rounds_injective in H; try done.
  apply Forall_drop, Forall_is_u64_RC.
Qed.

Lemma ascon_permutation_injective_witness :
  0 <= 12 <= 12 ∧ wf_state (State 1 2 3 4 5) ∧
  wf_state (State 1 2 3 4 5) ∧
  ascon_permutation (State 1 2 3 4 5) 12
  = ascon_permutation (State 1 2 3 4 5) 12 ∧
  State 1 2 3 4 5 = State 1 2 3 4 5.
Proof.
  assert (wf_state (State 1 2 3 4 5)) as H1.
  { unfold wf_state, is_u64. cbn. lia. }
  assert (0 <= 12 <= 12) as H2 by lia.
  split; [exact H2 |]. split; [exact H1 |]. split; [exact H1 |].
  split; [reflexivity |].
  apply (ascon_permutation_injective (State 1 2 3 4 5) (State 1 2 3 4 5)
           12 H2 H1 H1 eq_refl).
Defined.

(** * The memory-safety contract of [ascon_mac] *)

Lemma eval_operand_Load64_Some m r off v :
  eval_operand m (Load64 r off) = Some v →
  0 <= off ∧ (Z.to_nat off + 8 <= length (region_bytes m r))%nat.
Proof.
  cbn [eval_operand]. destruct (Z.leb_spec 0 off) as [Hoff | Hoff]; [| done].
  intros H. split; [done |].
  destruct (Nat.le_gt_cases 8
              (length (drop (Z.to_nat off) (region_bytes m r))))
    as [Hl | Hl].
  - rewrite length_drop in Hl. lia.
  - by rewrite load64_be_short in H.
Qed.

Lemma assign_Some j o m m' :
  assign j o m = Some m' →
  same_args m m' ∧ ∃ v, eval_operand m o = Some v.
Proof.
  unfold assign. case_decide as Hj; [| done]. intros H.
  apply bind_Some in H as (v & Hv & [= <-]). split; [done | by exists v].
Qed.

Lemma xor_assign_Some j o m m' :
  xor_assign j o m = Some m' →
  same_args m m' ∧ ∃ v, eval_operand m o = Some v.
Proof.
  unfold xor_assign. case_decide as Hj; [| done]. intros H.
  apply bind_Some in H as (v & Hv & [= <-]). split; [done | by exists v].
Qed.

Lemma permute_Some r m m' : permute r m = Some m' → same_args m m'.
Proof.
  unfold permute. intros H. by apply bind_Some in H as (s' & _ & [= <-]).
Qed.

Lemma same_args_trans m1 m2 m3 :
  same_args m1 m2 → same_args m2 m3 → same_args m1 m3.
Proof. intros (? & ? & ?) (? & ? & ?). repeat split; congruence. Qed.

Lemma store64_be_length p off x p' :
  store64_be p off x = Some p' → length p' = length p.
Proof.
  intros H. pose proof (store64_be_Some _ _ _ _ H) as Hp.
  rewrite store64_be_spec in H by done. apply (inj Some) in H. subst p'.
  rewrite !length_app, length_take, length_be_bytes, length_drop. lia.
Qed.

(** [bind_inv H x Hx] splits [H : (mx ≫= f) = Some _] into [Hx : mx = Some x]
    and [H : f x = Some _]. *)
Ltac bind_inv H x Hx :=
  apply bind_Some in H as (x & Hx & H); cbv beta zeta in H.

Lemma absorb_block_Some i m m' :
  0 <= i → i * 32 < 2 ^ 64 → absorb_block i m = Some m' →
  same_args m m' ∧ 32 * i + 32 <= Z.of_nat (length (m_msg m)).
Proof.
  intros Hi H64 H. unfold absorb_block in H. cbv zeta in H.
  rewrite (wrap64_small (i * 32)) in H by (unfold is_u64; lia).
  bind_inv H m1 H1. bind_inv H m2 H2. bind_inv H m3 H3. bind_inv H m4 H4.
  apply xor_assign_Some in H1 as [A1 _], H2 as [A2 _], H3 as [A3 _],
    H4 as [A4 [v Hv]].
  apply permute_Some in H.
  pose proof (same_args_trans _ _ _ A1 (same_args_trans _ _ _ A2 A3)) as A.
  split.
  - exact (same_args_trans _ _ _ A (same_args_trans _ _ _ A4 H)).
  - apply eval_operand_Load64_Some in Hv as [_ Hv].
    cbn [region_bytes] in Hv. destruct A as (_ & Hm & _).
    rewrite Hm in Hv. lia.
Qed.

Lemma absorb_loop_Some fuel i fb m m' :
  0 <= i → fb * 32 < 2 ^ 64 → absorb_loop fuel i fb m = Some m' →
  same_args m m' ∧ (i < fb → 32 * fb <= Z.of_nat (length (m_msg m))).
Proof.
  revert i m. induction fuel as [| fuel IH]; intros i m Hi H64 H;
    cbn [absorb_loop] in H; destruct (Z.ltb_spec i fb) as [Hlt | Hge];
    try done; try (injection H as <-; split; [done | lia]).
  bind_inv H m1 H1.
  apply absorb_block_Some in H1 as [A1 Hlen]; [| lia ..].
  rewrite (wrap64_small (i + 1)) in H by (unfold is_u64; lia).
  apply IH in H as [A2 Hrest]; [| lia ..].
  split; [exact (same_args_trans _ _ _ A1 A2) |].
  intros _. destruct (Z.lt_ge_cases (i + 1) fb) as [Hnext | Hlast].
  - destruct A1 as (_ & Hm & _). rewrite <- Hm. by apply Hrest.
  - lia.
Qed.

Lemma ascon_mac_Some len m m' :
  0 <= len < 2 ^ 64 → ascon_mac len m = Some m' → mac_safe len m.
Proof.
  intros Hlen H. unfold ascon_mac in H.
  assert (0 <= len mod 32 < 32) as Hr by (apply Z.mod_pos_bound; lia).
  assert (len = 32 * (len / 32) + len mod 32) as Hqr
    by (apply Z.div_mod; lia).
  assert (0 <= len / 32) as Hq by (apply Z.div_pos; lia).
  bind_inv H m1 H1. bind_inv H m2 H2. bind_inv H m3 H3. bind_inv H m4 H4.
  bind_inv H m5 H5. bind_inv H m6 H6. bind_inv H m7 H7.
  rewrite (wrap64_small (len / 32 * 32)) in H by (unfold is_u64; lia).
  rewrite (wrap64_small (len - len / 32 * 32)) in H by (unfold is_u64; lia).
  bind_inv H m8 H8. bind_inv H b Hb.
  bind_inv H m9 H9. bind_inv H m10 H10. bind_inv H m11 H11.
  bind_inv H m12 H12. bind_inv H m13 H13. bind_inv H m14 H14.
  bind_inv H t1 Ht1. bind_inv H t2 Ht2.
  apply assign_Some in H1 as [A1 _], H2 as [A2 _], H3 as [A3 [v Hv]],
    H4 as [A4 _], H5 as [A5 _].
  apply permute_Some in H6.
  apply absorb_loop_Some in H7 as [A7 Hloop]; [| lia ..].
  pose proof (same_args_trans _ _ _ A1 A2) as A02.
  pose proof (same_args_trans _ _ _ A02
                (same_args_trans _ _ _ A3
                   (same_args_trans _ _ _ A4
                      (same_args_trans _ _ _ A5 H6)))) as A06.
  pose proof (same_args_trans _ _ _ A06 A7) as A07.
  (* the key *)
  apply eval_operand_Load64_Some in Hv as [_ Hv].
  cbn [region_bytes] in Hv. destruct A02 as (Hk2 & _ & _).
  rewrite Hk2 in Hv.
  (* the message *)
  assert (len <= Z.of_nat (length (m_msg m))) as Hmsg.
  { destruct A06 as (_ & Hm6 & _), A07 as (_ & Hm7 & _).
    destruct (Z.ltb_spec 0 (len - len / 32 * 32)) as [Hpos | Hzero].
    - bind_inv H8 b' Hb'. unfold memcpy in Hb'.
      case_decide as Hc; [| done]. destruct Hc as [Hc _].
      cbn [with_buf m_msg] in Hc. rewrite length_drop, Hm7 in Hc. lia.
    - destruct (Z.lt_ge_cases 0 (len / 32)) as [Hq0 | Hq0].
      + specialize (Hloop Hq0). rewrite Hm6 in Hloop. lia.
      + lia. }
  (* the tag *)
  assert (16 <= length (m_tag m))%nat as Htag.
  { apply xor_assign_Some in H9 as [A9 _], H10 as [A10 _], H11 as [A11 _],
      H12 as [A12 _], H13 as [A13 _].
    apply permute_Some in H14.
    pose proof (same_args_trans _ _ _ A9
                  (same_args_trans _ _ _ A10
                     (same_args_trans _ _ _ A11
                        (same_args_trans _ _ _ A12
                           (same_args_trans _ _ _ A13 H14))))) as A914.
    assert (m_tag m8 = m_tag m) as Ht8.
    { destruct A07 as (_ & _ & Ht7).
      destruct (0 <? len - len / 32 * 32).
      - bind_inv H8 b' Hb'. injection H8 as <-. exact Ht7.
      - injection H8 as <-. exact Ht7. }
    destruct A914 as (_ & _ & Ht14). cbn [with_buf m_tag] in Ht14.
    pose proof (store64_be_length _ _ _ _ Ht1) as Hl1.
    apply store64_be_Some in Ht2. rewrite Hl1, Ht14, Ht8 in Ht2. lia. }
  repeat split; (done || lia).
Qed.

(** For a length below 2^64, [ascon_mac] stays inside its buffers exactly
    when the key buffer holds sixteen bytes, the message buffer [len]
    bytes and the tag buffer sixteen bytes; otherwise some read or write
    of the call is out of bounds. *)
Theorem ascon_mac_memory_safe (len : Z) (m : machine) :
  0 <= len < 2 ^ 64 →
  is_Some (ascon_mac len m) ↔
  (16 <= length (m_key m))%nat ∧ len <= Z.of_nat (length (m_msg m)) ∧
  (16 <= length (m_tag m))%nat.
Proof.
  intros Hlen. split.
  - intros [m' Hm']. apply ascon_mac_Some in Hm' as (? & [? ?] & ? & ?);
      done.
  - intros (Hk & Hm & Ht).
    destruct (ascon_mac_run_safe len m) as (sF & _ & _ & Hrun).
    { repeat split; (done || lia). }
    rewrite Hrun. by eexists.
Qed.

Lemma ascon_mac_memory_safe_witness :
  0 <= 33 < 2 ^ 64 ∧
  (is_Some (ascon_mac 33 sample_machine) ↔
   (16 <= length (m_key sample_machine))%nat ∧
   33 <= Z.of_nat (length (m_msg sample_machine)) ∧
   (16 <= length (m_tag sample_machine))%nat).
Proof.
  assert (0 <= 33 < 2 ^ 64) as H by lia.
  split; [exact H |]. apply (ascon_mac_memory_safe 33 sample_machine H).
Defined.

(** * What [ascon_mac] reads of its inputs *)

Lemma word_at_take (p : list byte) (n off : nat) :
  (off + 8 <= n)%nat → word_at (take n p) off = word_at p off.
Proof.
  intros Hn. unfold word_at. f_equal.
  rewrite !take_drop_commute, take_take. do 2 f_equal. lia.
Qed.

Lemma absorb_words_take s (p : list byte) (n off : nat) :
  (off + 32 <= n)%nat →
  absorb_words s (take n p) off = absorb_words s p off.
Proof.
  intros Hn. unfold absorb_words. by rewrite !word_at_take by lia.
Qed.

Lemma fold_left_seq_ext {A : Type} (f g : A → nat → A) (j k : nat) a :
  (∀ st i, (j <= i < j + k)%nat → f st i = g st i) →
  fold_left f (seq j k) a = fold_left g (seq j k) a.
Proof.
  revert j a. induction k as [| k IH]; intros j a Hfg; [done |].
  cbn [seq fold_left]. rewrite Hfg by lia. apply IH.
  intros st i Hi. apply Hfg. lia.
Qed.

Lemma blocks_state_take key msg (k n : nat) :
  (32 * k <= n)%nat →
  blocks_state (take 16 key) (take n msg) k = blocks_state key msg k.
Proof.
  intros Hn. unfold blocks_state. rewrite !word_at_take by lia.
  apply fold_left_seq_ext. intros st i Hi.
  by rewrite absorb_words_take by lia.
Qed.

Lemma pad_block_take msg len :
  0 <= len → pad_block (take (Z.to_nat len) msg) len = pad_block msg len.
Proof.
  intros Hlen. unfold pad_block. cbv zeta. f_equal.
  assert (0 <= len mod 32 < 32) as Hr by (apply Z.mod_pos_bound; lia).
  assert (len = 32 * (len / 32) + len mod 32) as Hqr
    by (apply Z.div_mod; lia).
  assert (0 <= len / 32) as Hq by (apply Z.div_pos; lia).
  rewrite !take_drop_commute, take_take. do 2 f_equal. lia.
Qed.

(** The state the tag is read from depends on the first sixteen key bytes
    and the first [len] message bytes only. *)
Lemma final_state_prefix key msg len :
  0 <= len →
  absorb_final (blocks_state (take 16 key) (take (Z.to_nat len) msg)
                  (Z.to_nat (len / 32)))
    (pad_block (take (Z.to_nat len) msg) len)
  = absorb_final (blocks_state key msg (Z.to_nat (len / 32)))
      (pad_block msg len).
Proof.
  intros Hlen.
  assert (len = 32 * (len / 32) + len mod 32) as Hqr
    by (apply Z.div_mod; lia).
  assert (0 <= len mod 32 < 32) as Hr by (apply Z.mod_pos_bound; lia).
  assert (0 <= len / 32) as Hq by (apply Z.div_pos; lia).
  rewrite blocks_state_take by lia. by rewrite pad_block_take.
Qed.

(** [ascon_mac] never looks past the sixteenth key byte nor past the
    [len]-th message byte: two calls whose key buffers agree on their
    first sixteen bytes and whose message buffers agree on their first
    [len] bytes end in the same state and write the same tag, whatever
    follows in the buffers. *)
Theorem ascon_mac_reads_prefix (len : Z) (m1 m2 : machine) :
  mac_safe len m1 → mac_safe len m2 →
  take 16 (m_key m1) = take 16 (m_key m2) →
  take (Z.to_nat len) (m_msg m1) = take (Z.to_nat len) (m_msg m2) →
  ∃ m1' m2',
    ascon_mac len m1 = Some m1' ∧ ascon_mac len m2 = Some m2' ∧
    m_s m1' = m_s m2' ∧
    take 16 (m_tag m1') = take 16 (m_tag m2').
Proof.
  intros Hs1 Hs2 Hkey Hmsg.
  destruct (ascon_mac_run_safe len m1 Hs1) as (s1 & Hre1 & _ & Hrun1).
  destruct (ascon_mac_run_safe len m2 Hs2) as (s2 & Hre2 & _ & Hrun2).
  rewrite replay_mac_events_state in Hre1, Hre2.
  apply (inj Some) in Hre1, Hre2.
  destruct Hs1 as (_ & [Hlen _] & _).
  assert (s1 = s2) as <-.
  { rewrite <- Hre1, <- Hre2.
    rewrite <- (final_state_prefix (m_key m1)) by done.
    rewrite <- (final_state_prefix (m_key m2)) by done.
    by rewrite Hkey, Hmsg. }
  exists (final_machine len m1 s1), (final_machine len m2 s1).
  split; [done |]. split; [done |]. split; [done |].
  unfold final_machine. cbn [m_tag].
  rewrite !(app_assoc (be_bytes _) (be_bytes _)).
  by rewrite !take_app_length' by done.
Qed.

Lemma ascon_mac_reads_prefix_witness :
  mac_safe 20
    (Machine (sample_key ++ [xff]) sample_msg (replicate 16 x00)
       (State 0 0 0 0 0) [] []) ∧
  mac_safe 20 sample_machine ∧
  ∃ m1' m2',
    ascon_mac 20
      (Machine (sample_key ++ [xff]) sample_msg (replicate 16 x00)
         (State 0 0 0 0 0) [] []) = Some m1' ∧
    ascon_mac 20 sample_machine = Some m2' ∧
    take 16 (m_tag m1') = take 16 (m_tag m2').
Proof.
  assert (mac_safe 20
            (Machine (sample_key ++ [xff]) sample_msg (replicate 16 x00)
               (State 0 0 0 0 0) [] [])) as H1
    by (unfold mac_safe; cbn; lia).
  assert (mac_safe 20 sample_machine) as H2 by (unfold mac_safe; cbn; lia).
  split; [exact H1 |]. split; [exact H2 |].
  destruct (ascon_mac_reads_prefix 20 _ sample_machine H1 H2
              eq_refl eq_refl)
    as (m1' & m2' & Hr1 & Hr2 & _ & Ht).
  exists m1', m2'. split; [exact Hr1 |]. split; [exact Hr2 | exact Ht].
Defined.
